(** * SOAP I/O analysis: result model, rank decomposition and orchestrators

    A shallow embedding of [dace/transformation/estimator/soap/io_analysis.py]:
    the [IOAnalysisSubgraph] record with its [get_data_decomposition] method,
    and the two entry points [perform_soap_analysis] and
    [perform_soap_analysis_einsum].

    Conventions of the embedding.
    - Python [dict]s that are iterated are association lists in insertion
      order; dictionaries that are only written and looked up are [gmap]s.
    - Exceptions are explicit: a computation yields [Ok v] or [Raise e].
    - The three decomposition fields hold numerical values (the source says
      so in the comment above them), so they are lists of [Z]; on exact
      integers the true division of [div] is the integer quotient, because
      its numerator is a multiple of the divisor (lemma [div_exact]).
    - The method is written against Python's arithmetic operators, and what
      they do depends on the numbers it is handed.  Module [Generic] has the
      method over any numbers with those operators; [Generic.exact] are the
      exact integers (sympy [Integer]s, the annotated type of the fields),
      on which it is the model over [Z] above (lemma
      [generic_exact_get_data_decomposition]); [Python.numeric] are Python's
      own [int] and [float], where the true division of two [int]s is a
      binary64 [float].
    - A local variable that may be read before it is bound is an
      [option]-valued slot; reading [None] raises [UnboundLocalError]. *)

From stdpp Require Import base decidable option list gmap strings fin_maps.
From Stdlib Require Import ZArith Lia Ascii SpecFloat.

Local Open Scope Z_scope.

(** ** Exceptions and results *)

Inductive exn : Type :=
  | ZeroDivisionError
  | IndexError
  | KeyError (key : string)
  | UnboundLocalError (var : string)
  | AssertionError
  | OverflowError
  | CollaboratorError (what : string).

Inductive result (A : Type) : Type :=
  | Ok (a : A)
  | Raise (e : exn).
Arguments Ok {A} a.
Arguments Raise {A} e.

#[global] Instance result_ret : MRet result := λ _ a, Ok a.
#[global] Instance result_bind : MBind result := λ _ _ k r,
  match r with
  | Ok a => k a
  | Raise e => Raise e
  end.

(** ** The result model *)

(** Stand-in for [sp.Expr] where the analysis only carries the value around
    ([Q], [rho] and the tiles). *)
Inductive Expr : Type :=
  | Lit (z : Z)
  | Symbol (s : string)
  | Add (a b : Expr)
  | Mul (a b : Expr)
  | Pow (a b : Expr).

(** A half-open integer range [(start, end)]. *)
Definition range : Type := (Z * Z)%type.

(** [arr -> (access -> pars)], in insertion order. *)
Definition accesses_t : Type := list (string * list string).
Definition phis_t : Type := list (string * accesses_t).

Record IOAnalysisSubgraph : Type := mkIOAnalysisSubgraph {
  name : Z;
  Q : Expr;
  rho : Expr;
  input_arrays : phis_t;
  variables : list string;       (* [str(var)] of each iterator symbol *)
  inner_tile : list Expr;
  outer_tile : list Expr;
  loc_domain_dims : list Z;
  p_grid : list Z;
  dimensions_ordered : list Z
}.

(** ** [get_data_decomposition] on exact integers

    The method with every number an exact integer, as when the fields and
    the rank are sympy [Integer]s.  What the operators do on other numbers
    is in [Generic] and [Python] below. *)

(** [sp.prod]: [reduce(operator.mul, a, 1)]. *)
Definition prod (a : list Z) : Z := foldl Z.mul 1 a.

(** [div = lambda x,y: (x-x%y)/y], on exact integers: the numerator is a
    multiple of [y], so the true division returns the integer quotient
    (lemma [div_exact]); [Generic.div] is the same lambda over any numbers
    (lemma [generic_exact_div]). *)
Definition div (x y : Z) : result Z :=
  if decide (y = 0) then Raise ZeroDivisionError
  else Ok ((x - x `mod` y) / y).

(** The loop filling [p_pos]; [self.p_grid[dim_num+1 :]] is the tail of the
    part of the grid still to be visited. *)
Fixpoint p_pos_loop (grid : list Z) (pp : Z) : result (list Z) :=
  match grid with
  | [] => Ok []
  | _dim_size :: rest =>
      p_dim ← div pp (prod rest);
      p_pos ← p_pos_loop rest (pp - p_dim * prod rest);
      Ok (p_dim :: p_pos)
  end.

(** [l[i]] for a non-negative index. *)
Definition index {A} (l : list A) (i : nat) : result A :=
  match l !! i with
  | Some x => Ok x
  | None => Raise IndexError
  end.

(** The items of the comprehension building [iter_ranges], in order:
    [i] is the [enumerate] counter, [vds] what is left of the [zip].  The
    source reads [p_pos[i]] and [self.loc_domain_dims[i]] twice per item;
    the second read returns what the first did. *)
Fixpoint iter_ranges_items (p_pos loc : list Z) (i : nat)
    (vds : list (string * Z)) : result (list (string * range)) :=
  match vds with
  | [] => Ok []
  | (var, dim_size) :: vds' =>
      c ← index p_pos i;
      l ← index loc i;
      items ← iter_ranges_items p_pos loc (S i) vds';
      Ok ((var, (c * l, Z.min ((c + 1) * l) dim_size)) :: items)
  end.

(** Python's [zip] stops at the shorter sequence. *)
Fixpoint zip_py {A B} (l : list A) (k : list B) : list (A * B) :=
  match l, k with
  | a :: l', b :: k' => (a, b) :: zip_py l' k'
  | _, _ => []
  end.

(** A dict built from items in order: a later item overrides an earlier one
    with the same key. *)
Definition dict_of_items {V} (items : list (string * V)) : gmap string V :=
  foldl (λ m kv, <[kv.1 := kv.2]> m) ∅ items.

(** [access.split('*')]: the maximal runs between separators, empty runs
    included. *)
Fixpoint split (sep : ascii) (s : string) : list string :=
  match s with
  | EmptyString => [EmptyString]
  | String c s' =>
      if Ascii.eqb c sep then EmptyString :: split sep s'
      else match split sep s' with
           | w :: ws => String c w :: ws
           | [] => [String c EmptyString]
           end
  end.

Definition star : ascii := "*"%char.

(** The innermost loop: [rngs[it] = iter_ranges[it]]. *)
Fixpoint resolve_loop (iter_ranges : gmap string range) (its : list string)
    (rngs : gmap string range) : result (gmap string range) :=
  match its with
  | [] => Ok rngs
  | it :: its' =>
      match iter_ranges !! it with
      | Some r => resolve_loop iter_ranges its' (<[it := r]> rngs)
      | None => Raise (KeyError it)
      end
  end.

(** The loop over the accesses of one array, threading the local [rngs]:
    every access rebinds it to a fresh dict before resolving its symbols. *)
Fixpoint access_loop (iter_ranges : gmap string range) (accesses : accesses_t)
    (rngs : option (gmap string range)) : result (option (gmap string range)) :=
  match accesses with
  | [] => Ok rngs
  | (access, _pars) :: accesses' =>
      r ← resolve_loop iter_ranges (split star access) ∅;
      access_loop iter_ranges accesses' (Some r)
  end.

(** The loop over the arrays, threading [rngs] and [par_distribution];
    [par_distribution[arr] = rngs] reads the local [rngs]. *)
Fixpoint array_loop (iter_ranges : gmap string range) (arrays : phis_t)
    (rngs : option (gmap string range))
    (par_distribution : gmap string (gmap string range))
    : result (gmap string (gmap string range)) :=
  match arrays with
  | [] => Ok par_distribution
  | (arr, accesses) :: arrays' =>
      rngs' ← access_loop iter_ranges accesses rngs;
      match rngs' with
      | None => Raise (UnboundLocalError "rngs")
      | Some r =>
          array_loop iter_ranges arrays' (Some r) (<[arr := r]> par_distribution)
      end
  end.

(** What [print] writes. *)
Inductive diagnostic : Type :=
  | IdleRank (used : Z) (rank : Z).

(** Lines 38-43: the coordinates of rank [pp]. *)
Definition p_pos (self : IOAnalysisSubgraph) (pp : Z) : result (list Z) :=
  p_pos_loop (p_grid self) pp.

(** Lines 45-47, before the items are stored in the dict. *)
Definition iter_ranges_list (self : IOAnalysisSubgraph) (pp : Z)
    : result (list (string * range)) :=
  pos ← p_pos self pp;
  iter_ranges_items pos (loc_domain_dims self) 0
    (zip_py (variables self) (dimensions_ordered self)).

Definition iter_ranges (self : IOAnalysisSubgraph) (pp : Z)
    : result (gmap string range) :=
  items ← iter_ranges_list self pp;
  Ok (dict_of_items items).

Definition get_data_decomposition (self : IOAnalysisSubgraph) (pp : Z)
    : result (gmap string (gmap string range)) * list diagnostic :=
  if decide (prod (p_grid self) ≤ pp) then
    (Ok ∅, [IdleRank (prod (p_grid self)) pp])
  else
    (tbl ← iter_ranges self pp;
     array_loop tbl (input_arrays self) None ∅, []).

(** ** The orchestrators *)

(** The live subgraph objects the engine returns ([subgr]). *)
Module Subgraph.
Record t : Type := mk {
  name : Z;
  Q : Expr;
  rhoOpts : Expr;
  variables : list string;
  inner_tile : list Expr;
  outer_tile : list Expr;
  phis : phis_t;
  loc_domain_dims : list Z;
  p_grid : list Z;
  dimensions_ordered : list Z
}.
End Subgraph.

Record Solver : Type := mkSolver {
  cached_only : bool;
  caching_solutions : bool
}.

#[global] Instance Solver_eq_dec : EqDecision Solver.
Proof. solve_decision. Defined.

(** Calls that leave the module, in the order they are made. *)
Inductive event : Type :=
  | ParseParams
  | NewSolver (s : Solver)
  | StartSolver (remote : bool)
  | SetTimeout (seconds : Z)
  | SdfgGen (einsum_string : string)
  | NewSDG
  | WeaklyConnectedComponents
  | CalculateIO
  | EndSolver
  | InitDecomposition (subgraph : Z).

#[global] Instance event_eq_dec : EqDecision event.
Proof. solve_decision. Defined.

(** A computation with exceptions that appends to the log of calls; the log
    is kept when an exception propagates. *)
Definition io (A : Type) : Type := list event → result A * list event.

#[global] Instance io_ret : MRet io := λ _ a log, (Ok a, log).
#[global] Instance io_bind : MBind io := λ _ _ k m log,
  match m log with
  | (Ok a, log') => k a log'
  | (Raise e, log') => (Raise e, log')
  end.

Definition raise {A} (e : exn) : io A := λ log, (Raise e, log).

(** A call to a collaborator: logged, then its outcome. *)
Definition call {A} (ev : event) (outcome : result A) : io A :=
  λ log, (outcome, log ++ [ev]).

(** A local variable of a function body. *)
Inductive local (A : Type) : Type :=
  | Unbound
  | Bound (v : A).
Arguments Unbound {A}.
Arguments Bound {A} v.

Definition load {A} (var : string) (slot : local A) : io A :=
  match slot with
  | Bound v => mret v
  | Unbound => raise (UnboundLocalError var)
  end.

(** The solver session is open after [start_solver] until [end_solver]. *)
Definition session_open (log : list event) : bool :=
  foldl (λ b ev, match ev with
                 | StartSolver _ => true
                 | EndSolver => false
                 | _ => b
                 end) false log.

Section Orchestrators.

(** The graph types and the decomposition parameters belong to the
    collaborators. *)
Context {SDFG SDG DecompositionParams : Type}.

Record SOAPParameters : Type := mkSOAPParameters {
  only_cached : bool;
  caching_solver_solutions : bool;
  remoteMatlab : bool;
  decomposition_params : DecompositionParams;
  solver : option Solver
}.

Definition set_solver_attr (params : SOAPParameters) (s : Solver)
    : SOAPParameters :=
  {| only_cached := only_cached params;
     caching_solver_solutions := caching_solver_solutions params;
     remoteMatlab := remoteMatlab params;
     decomposition_params := decomposition_params params;
     solver := Some s |}.

(** What the imported functions and methods answer; each may raise. *)
Record collaborators : Type := mkCollaborators {
  parse_params : result SOAPParameters;
  start_solver : Solver → bool → result unit;
  set_timeout : Solver → Z → result unit;
  end_solver : Solver → result unit;
  sdfg_gen : string → result SDFG;
  new_SDG : SDFG → SOAPParameters → result SDG;
  number_weakly_connected_components : SDG → result nat;
  calculate_IO_of_SDG : SDG → SOAPParameters
                        → result (Expr * list Subgraph.t);
  init_decomposition : DecompositionParams → SOAPParameters
                       → Subgraph.t → result Subgraph.t
}.

Record IOAnalysis : Type := mkIOAnalysis {
  an_name : string;
  an_Q : Expr;
  sdg : SDG;
  subgraphs : list IOAnalysisSubgraph
}.

Variable W : collaborators.

(** Lines 85-89 and 127-131: the session this call opens. *)
Definition open_session : io SOAPParameters :=
  params ← call ParseParams (parse_params W);
  let solver := {| cached_only := only_cached params;
                   caching_solutions := caching_solver_solutions params |} in
  call (NewSolver solver) (Ok ());;
  call (StartSolver (remoteMatlab params))
       (start_solver W solver (remoteMatlab params));;
  call (SetTimeout 300) (set_timeout W solver 300);;
  mret (set_solver_attr params solver).

(** [IOAnalysisSubgraph(name=..., ..., input_arrays=subgr.phis)]: the three
    decomposition fields take their [default_factory]. *)
Definition new_IOAnalysisSubgraph (subgr : Subgraph.t) : IOAnalysisSubgraph :=
  {| name := Subgraph.name subgr;
     Q := Subgraph.Q subgr;
     rho := Subgraph.rhoOpts subgr;
     input_arrays := Subgraph.phis subgr;
     variables := Subgraph.variables subgr;
     inner_tile := Subgraph.inner_tile subgr;
     outer_tile := Subgraph.outer_tile subgr;
     loc_domain_dims := [];
     p_grid := [];
     dimensions_ordered := [] |}.

(** The three assignments copying the decomposition fields of [subgr]. *)
Definition copy_decomposition (io_res_sg : IOAnalysisSubgraph)
    (subgr : Subgraph.t) : IOAnalysisSubgraph :=
  {| name := name io_res_sg;
     Q := Q io_res_sg;
     rho := rho io_res_sg;
     input_arrays := input_arrays io_res_sg;
     variables := variables io_res_sg;
     inner_tile := inner_tile io_res_sg;
     outer_tile := outer_tile io_res_sg;
     loc_domain_dims := Subgraph.loc_domain_dims subgr;
     p_grid := Subgraph.p_grid subgr;
     dimensions_ordered := Subgraph.dimensions_ordered subgr |}.

Definition call_init_decomposition (params : SOAPParameters)
    (subgr : Subgraph.t) : io Subgraph.t :=
  call (InitDecomposition (Subgraph.name subgr))
       (init_decomposition W (decomposition_params params) params subgr).

(** Lines 98-107. *)
Fixpoint snapshot_loop (generate_schedule : bool) (params : SOAPParameters)
    (subgraphs : list Subgraph.t) (subgraphs_res : list IOAnalysisSubgraph)
    : io (list IOAnalysisSubgraph) :=
  match subgraphs with
  | [] => mret subgraphs_res
  | subgr :: rest =>
      let io_res_sg := new_IOAnalysisSubgraph subgr in
      io_res_sg ←
        (if generate_schedule then
           subgr ← call_init_decomposition params subgr;
           mret (copy_decomposition io_res_sg subgr)
         else mret io_res_sg);
      snapshot_loop generate_schedule params rest (subgraphs_res ++ [io_res_sg])
  end.

(** Lines 138-148. *)
Fixpoint snapshot_loop_einsum (generate_schedule : bool)
    (params : SOAPParameters) (subgraphs : list Subgraph.t)
    (subgraphs_res : list IOAnalysisSubgraph)
    : io (list IOAnalysisSubgraph) :=
  match subgraphs with
  | [] => mret subgraphs_res
  | subgr :: rest =>
      let io_res_sg := new_IOAnalysisSubgraph subgr in
      subgr ←
        (if generate_schedule then call_init_decomposition params subgr
         else mret subgr);
      let io_res_sg := copy_decomposition io_res_sg subgr in
      snapshot_loop_einsum generate_schedule params rest
        (subgraphs_res ++ [io_res_sg])
  end.

(** [params.solver.end_solver()]. *)
Definition call_end_solver (params : SOAPParameters) : io unit :=
  match solver params with
  | Some s => call EndSolver (end_solver W s)
  | None => raise (CollaboratorError "AttributeError")
  end.

(** The body of [perform_soap_analysis] (lines 84-109), entered with the
    local [params] holding [params0]: [None] stands for a false value,
    [Some p] for a parameters object. *)
Definition perform_soap_analysis_body (params0 : local (option SOAPParameters))
    (sdfg : SDFG) (generate_schedule : bool) : io IOAnalysis :=
  p ← load "params" params0;
  params ← match p with
           | Some params => mret params
           | None => open_session
           end;
  sdg ← call NewSDG (new_SDG W sdfg params);
  n ← call WeaklyConnectedComponents
           (number_weakly_connected_components W sdg);
  (if decide (n = 1%nat) then mret () else raise AssertionError);;
  '(Q, subgraphs) ← call CalculateIO (calculate_IO_of_SDG W sdg params);
  call_end_solver params;;
  subgraphs_res ← snapshot_loop generate_schedule params subgraphs [];
  mret {| an_name := "SDFG"; an_Q := Q; sdg := sdg;
          subgraphs := subgraphs_res |}.

(** [perform_soap_analysis(sdfg, generate_schedule=False)]: the signature
    binds [sdfg] and [generate_schedule] only, and [params] is assigned in
    the body, so it is a local of the function that nothing has bound when
    line 84 reads it. *)
Definition perform_soap_analysis (sdfg : SDFG)
    (generate_schedule : option bool) : io IOAnalysis :=
  perform_soap_analysis_body Unbound sdfg (default false generate_schedule).

(** [perform_soap_analysis_einsum(einsum_string, params=[],
    generate_schedule=True)]: [params = None] is the list [[]], passed or
    defaulted, [Some p] a parameters object. *)
Definition perform_soap_analysis_einsum (einsum_string : string)
    (params : option SOAPParameters) (generate_schedule : option bool)
    : io IOAnalysis :=
  let generate_schedule := default true generate_schedule in
  params ← match params with
           | None => open_session
           | Some params => mret params
           end;
  sdfg ← call (SdfgGen einsum_string) (sdfg_gen W einsum_string);
  sdg ← call NewSDG (new_SDG W sdfg params);
  '(Q, subgraphs) ← call CalculateIO (calculate_IO_of_SDG W sdg params);
  subgraphs_res ← snapshot_loop_einsum generate_schedule params subgraphs [];
  mret {| an_name := "SDFG"; an_Q := Q; sdg := sdg;
          subgraphs := subgraphs_res |}.

(** How a snapshot of the graph-based loop relates to its subgraph. *)
Definition graph_snapshot (generate_schedule : bool) (params : SOAPParameters)
    (subgr : Subgraph.t) (s : IOAnalysisSubgraph) : Prop :=
  if generate_schedule then
    ∃ subgr', init_decomposition W (decomposition_params params) params subgr
              = Ok subgr' ∧
              s = copy_decomposition (new_IOAnalysisSubgraph subgr) subgr'
  else s = new_IOAnalysisSubgraph subgr.

(** How a snapshot of the einsum loop relates to its subgraph. *)
Definition einsum_snapshot (generate_schedule : bool) (params : SOAPParameters)
    (subgr : Subgraph.t) (s : IOAnalysisSubgraph) : Prop :=
  ∃ subgr',
    (if generate_schedule then
       init_decomposition W (decomposition_params params) params subgr
       = Ok subgr'
     else subgr' = subgr) ∧
    s = copy_decomposition (new_IOAnalysisSubgraph subgr) subgr'.

End Orchestrators.

Arguments SOAPParameters : clear implicits.
Arguments collaborators : clear implicits.
Arguments IOAnalysis : clear implicits.

(** ** Specification-side definitions *)

(** Rank unranking as the specification words it: the coordinate of a
    dimension is the floor of the remaining rank over the suffix product,
    and the remaining rank loses [coord * suffixProduct]. *)
Fixpoint unrank_spec (processorGrid : list Z) (rank : Z) : list Z :=
  match processorGrid with
  | [] => []
  | _ :: suffix =>
      let suffixProduct := prod suffix in
      let coord := rank / suffixProduct in
      coord :: unrank_spec suffix (rank - coord * suffixProduct)
  end.

(** The half-open range of a dimension with coordinate [coord]. *)
Definition range_spec (coord localDomainDim globalDim : Z) : range :=
  (coord * localDomainDim, Z.min ((coord + 1) * localDomainDim) globalDim).

(** Membership in a half-open range. *)
Definition in_range (x : Z) (rg : range) : Prop := rg.1 ≤ x < rg.2.

(** The four sequences have length [N], grid and local extents are positive
    and the local blocks of a dimension reach its global extent. *)
Definition valid_decomposition (self : IOAnalysisSubgraph) (N : nat) : Prop :=
  length (variables self) = N ∧
  length (p_grid self) = N ∧
  length (loc_domain_dims self) = N ∧
  length (dimensions_ordered self) = N ∧
  Forall (λ p, 0 < p) (p_grid self) ∧
  Forall (λ l, 0 < l) (loc_domain_dims self) ∧
  ∀ i l p g,
    loc_domain_dims self !! i = Some l →
    p_grid self !! i = Some p →
    dimensions_ordered self !! i = Some g →
    g ≤ l * p.

(** The coordinate and the range rank [r] gets in dimension [i]. *)
Definition dim_coord (self : IOAnalysisSubgraph) (r : Z) (i : nat) : option Z :=
  match p_pos self r with
  | Ok pos => pos !! i
  | Raise _ => None
  end.

Definition dim_range (self : IOAnalysisSubgraph) (r : Z) (i : nat)
    : option range :=
  match iter_ranges_list self r with
  | Ok items => snd <$> items !! i
  | Raise _ => None
  end.

(** ** Events a computation may append *)

(** Every run of [m] appends only events satisfying [P], whatever it
    returns or raises. *)
Definition emits {A} (P : event → Prop) (m : io A) : Prop :=
  ∀ log, ∃ evs, (m log).2 = log ++ evs ∧ Forall P evs.

Definition not_end_solver (ev : event) : Prop := ev ≠ EndSolver.

Definition not_init_decomposition (ev : event) : Prop :=
  ∀ n, ev ≠ InitDecomposition n.

Definition not_connectivity_check (ev : event) : Prop :=
  ev ≠ WeaklyConnectedComponents.

(** The decomposition fields of a snapshot are at their defaults. *)
Definition decomposition_empty (s : IOAnalysisSubgraph) : Prop :=
  loc_domain_dims s = [] ∧ p_grid s = [] ∧ dimensions_ordered s = [].

(** The decomposition fields of a snapshot are those of [subgr]. *)
Definition decomposition_of (subgr : Subgraph.t) (s : IOAnalysisSubgraph) : Prop :=
  loc_domain_dims s = Subgraph.loc_domain_dims subgr ∧
  p_grid s = Subgraph.p_grid subgr ∧
  dimensions_ordered s = Subgraph.dimensions_ordered subgr.

(** The symbols of an access term resolved against a table: the entry the
    innermost loop builds when every symbol has a range. *)
Definition resolved (tbl : gmap string range) (access : string)
    (entry : gmap string range) : Prop :=
  ∀ k, entry !! k = if decide (k ∈ split star access) then tbl !! k else None.

(** Every symbol of the list has a range in the table. *)
Definition resolvable (tbl : gmap string range) (its : list string) : Prop :=
  Forall (λ it, is_Some (tbl !! it)) its.

Definition accesses_resolvable (tbl : gmap string range)
    (accesses : accesses_t) : Prop :=
  Forall (λ ap, resolvable tbl (split star ap.1)) accesses.

(** ** Concrete inputs *)

(** Concrete example A of the specification, with the arrays left open. *)
Definition example_A (arrays : phis_t) : IOAnalysisSubgraph :=
  {| name := 0; Q := Symbol "Q"; rho := Symbol "rho";
     input_arrays := arrays;
     variables := ["i"; "j"];
     inner_tile := []; outer_tile := [];
     loc_domain_dims := [4; 4];
     p_grid := [2; 2];
     dimensions_ordered := [8; 8] |}.

(** Concrete example B: one rank, ranges [i:(0,4)] and [k:(0,8)]. *)
Definition example_B (arrays : phis_t) : IOAnalysisSubgraph :=
  {| name := 0; Q := Symbol "Q"; rho := Symbol "rho";
     input_arrays := arrays;
     variables := ["i"; "k"];
     inner_tile := []; outer_tile := [];
     loc_domain_dims := [4; 8];
     p_grid := [1; 1];
     dimensions_ordered := [4; 8] |}.

(** An uneven decomposition: 10 points in blocks of 4 over 3 ranks. *)
Definition example_uneven : IOAnalysisSubgraph :=
  {| name := 0; Q := Symbol "Q"; rho := Symbol "rho";
     input_arrays := [("A", [("i", ["i"])])];
     variables := ["i"];
     inner_tile := []; outer_tile := [];
     loc_domain_dims := [4];
     p_grid := [3];
     dimensions_ordered := [10] |}.

(** A small set of collaborators: a kernel graph is given by its number of
    weakly connected components, every call succeeds, the engine finds one
    subgraph, and [init_decomposition] fills in example A. *)
Module Demo.

Definition params : SOAPParameters unit :=
  {| only_cached := false; caching_solver_solutions := true;
     remoteMatlab := false; decomposition_params := (); solver := None |}.

Definition subgraph : Subgraph.t :=
  {| Subgraph.name := 7; Subgraph.Q := Symbol "Q";
     Subgraph.rhoOpts := Symbol "rho";
     Subgraph.variables := ["i"; "j"];
     Subgraph.inner_tile := []; Subgraph.outer_tile := [];
     Subgraph.phis := [("A", [("i*j", ["i"; "j"])])];
     Subgraph.loc_domain_dims := [];
     Subgraph.p_grid := [];
     Subgraph.dimensions_ordered := [] |}.

Definition decomposed (subgr : Subgraph.t) : Subgraph.t :=
  {| Subgraph.name := Subgraph.name subgr; Subgraph.Q := Subgraph.Q subgr;
     Subgraph.rhoOpts := Subgraph.rhoOpts subgr;
     Subgraph.variables := Subgraph.variables subgr;
     Subgraph.inner_tile := Subgraph.inner_tile subgr;
     Subgraph.outer_tile := Subgraph.outer_tile subgr;
     Subgraph.phis := Subgraph.phis subgr;
     Subgraph.loc_domain_dims := [4; 4];
     Subgraph.p_grid := [2; 2];
     Subgraph.dimensions_ordered := [8; 8] |}.

Definition world : collaborators nat nat unit :=
  {| parse_params := Ok params;
     start_solver := λ _ _, Ok ();
     set_timeout := λ _ _, Ok ();
     end_solver := λ _, Ok ();
     sdfg_gen := λ _, Ok 2%nat;
     new_SDG := λ sdfg _, Ok sdfg;
     number_weakly_connected_components := λ sdg, Ok sdg;
     calculate_IO_of_SDG := λ _ _, Ok (Symbol "Q", [subgraph]);
     init_decomposition := λ _ _ subgr, Ok (decomposed subgr) |}.

(** What the graph-based body would return on a connected graph with the
    flag off. *)
Definition analysis_off : IOAnalysis nat :=
  {| an_name := "SDFG"; an_Q := Symbol "Q"; sdg := 1%nat;
     subgraphs := [new_IOAnalysisSubgraph subgraph] |}.

End Demo.

(** ** [get_data_decomposition] over any numbers *)

Module Generic.

(** The operators the method applies to its numbers, each as Python
    evaluates it on the operand types at hand; [n_one] is the literal [1]. *)
Class Numeric (num : Type) : Type := {
  n_one : num;
  n_mul : num → num → result num;
  n_add : num → num → result num;
  n_sub : num → num → result num;
  n_mod : num → num → result num;
  n_truediv : num → num → result num;
  n_le : num → num → bool;
  n_lt : num → num → bool
}.

(** The fields of [self] the method reads. *)
Record subgraph (num : Type) : Type := mk_subgraph {
  input_arrays : phis_t;
  variables : list string;
  loc_domain_dims : list num;
  p_grid : list num;
  dimensions_ordered : list num
}.
Arguments mk_subgraph {num}.
Arguments input_arrays {num}.
Arguments variables {num}.
Arguments loc_domain_dims {num}.
Arguments p_grid {num}.
Arguments dimensions_ordered {num}.

Section Method.

Context {num : Type} `{Numeric num}.

(** [sp.prod]: [reduce(operator.mul, a, 1)]. *)
Definition prod (a : list num) : result num :=
  foldl (λ acc x, acc ← acc; n_mul acc x) (Ok n_one) a.

(** [div = lambda x,y: (x-x%y)/y]. *)
Definition div (x y : num) : result num :=
  m ← n_mod x y;
  d ← n_sub x m;
  n_truediv d y.

(** The loop filling [p_pos].  The source evaluates
    [sp.prod(self.p_grid[dim_num+1 :])] once per statement; the second
    evaluation returns what the first did. *)
Fixpoint p_pos_loop (grid : list num) (pp : num) : result (list num) :=
  match grid with
  | [] => Ok []
  | _dim_size :: rest =>
      suffix ← prod rest;
      p_dim ← div pp suffix;
      step ← n_mul p_dim suffix;
      pp' ← n_sub pp step;
      p_pos ← p_pos_loop rest pp';
      Ok (p_dim :: p_pos)
  end.

(** The builtin [min] of two arguments: the second only if it is smaller. *)
Definition n_min (a b : num) : num := if n_lt b a then b else a.

(** The items of the comprehension building [iter_ranges]. *)
Fixpoint iter_ranges_items (p_pos loc : list num) (i : nat)
    (vds : list (string * num)) : result (list (string * (num * num))) :=
  match vds with
  | [] => Ok []
  | (var, dim_size) :: vds' =>
      c ← index p_pos i;
      l ← index loc i;
      lo ← n_mul c l;
      c1 ← n_add c n_one;
      hi ← n_mul c1 l;
      items ← iter_ranges_items p_pos loc (S i) vds';
      Ok ((var, (lo, n_min hi dim_size)) :: items)
  end.

Fixpoint resolve_loop (iter_ranges : gmap string (num * num))
    (its : list string) (rngs : gmap string (num * num))
    : result (gmap string (num * num)) :=
  match its with
  | [] => Ok rngs
  | it :: its' =>
      match iter_ranges !! it with
      | Some r => resolve_loop iter_ranges its' (<[it := r]> rngs)
      | None => Raise (KeyError it)
      end
  end.

Fixpoint access_loop (iter_ranges : gmap string (num * num))
    (accesses : accesses_t) (rngs : option (gmap string (num * num)))
    : result (option (gmap string (num * num))) :=
  match accesses with
  | [] => Ok rngs
  | (access, _pars) :: accesses' =>
      r ← resolve_loop iter_ranges (split star access) ∅;
      access_loop iter_ranges accesses' (Some r)
  end.

Fixpoint array_loop (iter_ranges : gmap string (num * num))
    (arrays : phis_t) (rngs : option (gmap string (num * num)))
    (par_distribution : gmap string (gmap string (num * num)))
    : result (gmap string (gmap string (num * num))) :=
  match arrays with
  | [] => Ok par_distribution
  | (arr, accesses) :: arrays' =>
      rngs' ← access_loop iter_ranges accesses rngs;
      match rngs' with
      | None => Raise (UnboundLocalError "rngs")
      | Some r =>
          array_loop iter_ranges arrays' (Some r) (<[arr := r]> par_distribution)
      end
  end.

Definition p_pos (self : subgraph num) (pp : num) : result (list num) :=
  p_pos_loop (p_grid self) pp.

Definition iter_ranges_list (self : subgraph num) (pp : num)
    : result (list (string * (num * num))) :=
  pos ← p_pos self pp;
  iter_ranges_items pos (loc_domain_dims self) 0
    (zip_py (variables self) (dimensions_ordered self)).

Definition iter_ranges (self : subgraph num) (pp : num)
    : result (gmap string (num * num)) :=
  items ← iter_ranges_list self pp;
  Ok (dict_of_items items).

(** The method: its outcome and the idle diagnostics printed, each with
    the two numbers it shows. *)
Definition get_data_decomposition (self : subgraph num) (pp : num)
    : result (gmap string (gmap string (num * num))) * list (num * num) :=
  match prod (p_grid self) with
  | Raise e => (Raise e, [])
  | Ok total =>
      if n_le total pp then (Ok ∅, [(total, pp)])
      else (tbl ← iter_ranges self pp;
            array_loop tbl (input_arrays self) None ∅, [])
  end.

(** The coordinate and the range a rank gets in dimension [i]. *)
Definition dim_coord (self : subgraph num) (r : num) (i : nat) : option num :=
  match p_pos self r with
  | Ok pos => pos !! i
  | Raise _ => None
  end.

Definition dim_range (self : subgraph num) (r : num) (i : nat)
    : option (num * num) :=
  match iter_ranges_list self r with
  | Ok items => snd <$> items !! i
  | Raise _ => None
  end.

End Method.

(** Exact integers, as sympy's [Integer]: every operator is the integer
    one, the quotient of a multiple by its divisor is the integer
    quotient.  A quotient that is no integer (a [Rational], or [zoo] on
    division by zero) lies outside this carrier; [div] asks for none. *)
Definition exact : Numeric Z :=
  {| n_one := 1;
     n_mul a b := Ok (a * b);
     n_add a b := Ok (a + b);
     n_sub a b := Ok (a - b);
     n_mod a b := if decide (b = 0) then Raise ZeroDivisionError
                  else Ok (a `mod` b);
     n_truediv a b :=
       if decide (b ≠ 0 ∧ a `mod` b = 0) then Ok (a / b)
       else Raise (CollaboratorError "not an Integer");
     n_le a b := bool_decide (a ≤ b);
     n_lt a b := bool_decide (a < b) |}.

End Generic.

(** The fields of a result-model subgraph, read as exact integers. *)
Definition of_exact (self : IOAnalysisSubgraph) : Generic.subgraph Z :=
  {| Generic.input_arrays := input_arrays self;
     Generic.variables := variables self;
     Generic.loc_domain_dims := loc_domain_dims self;
     Generic.p_grid := p_grid self;
     Generic.dimensions_ordered := dimensions_ordered self |}.

(** ** Python's [int] and [float] *)

Module Python.

(** binary64. *)
Definition prec : Z := 53.
Definition emax : Z := 1024.

Inductive num : Type :=
  | Int (z : Z)
  | Float (f : spec_float).

Definition is_zero (f : spec_float) : bool :=
  match f with S754_zero _ => true | _ => false end.

Definition is_infinite (f : spec_float) : bool :=
  match f with S754_infinity _ => true | _ => false end.

Definition is_negative (f : spec_float) : bool :=
  match f with
  | S754_zero s | S754_infinity s | S754_finite s _ _ => s
  | S754_nan => false
  end.

(** The nearest float to an integer, ties to even. *)
Definition round_Z (z : Z) : spec_float := binary_normalize prec emax z 0 false.

(** [float(z)] as the operators convert an [int] operand: [OverflowError]
    when the integer is too large. *)
Definition float_of_int (z : Z) : result spec_float :=
  let f := round_Z z in
  if is_infinite f then Raise OverflowError else Ok f.

Definition to_float (x : num) : result spec_float :=
  match x with
  | Float f => Ok f
  | Int z => float_of_int z
  end.

(** [a / b] on two [int]s: the correctly rounded quotient.  The quotient
    is taken with enough extra bits and a sticky bit for what is left. *)
Definition int_truediv (a b : Z) : result spec_float :=
  if decide (b = 0) then Raise ZeroDivisionError
  else
    let shift := Z.max 0 (Z.log2 (Z.abs b) - Z.log2 (Z.abs a) + 57) in
    let n := Z.abs a * 2 ^ shift in
    let q := n / Z.abs b in
    let sticky := if decide (n `mod` Z.abs b = 0) then 0 else 1 in
    let negative := xorb (a <? 0) (b <? 0) in
    let m := 2 * q + sticky in
    let f := binary_normalize prec emax (if negative then - m else m)
               (- shift - 1) negative in
    if is_infinite f then Raise OverflowError else Ok f.

(** The value of a finite float is [mantissa * 2 ^ exponent]. *)
Definition mantissa (f : spec_float) : Z :=
  match f with
  | S754_finite s m _ => if s then Z.neg m else Z.pos m
  | _ => 0
  end.

Definition exponent (f : spec_float) : Z :=
  match f with
  | S754_finite _ _ e => e
  | _ => 0
  end.

(** [x % y] on floats ([float_rem]): C's [fmod], which is exact, moved to
    the sign of the divisor; a zero result takes the divisor's sign. *)
Definition float_mod (x y : spec_float) : result spec_float :=
  if is_zero y then Raise ZeroDivisionError
  else
    match x, y with
    | S754_nan, _ | _, S754_nan | S754_infinity _, _ => Ok S754_nan
    | S754_zero _, _ => Ok (S754_zero (is_negative y))
    | S754_finite _ _ _, S754_infinity _ =>
        if xorb (is_negative x) (is_negative y) then Ok y else Ok x
    | S754_finite _ _ _, _ =>
        let e := Z.min (exponent x) (exponent y) in
        let X := mantissa x * 2 ^ (exponent x - e) in
        let Y := mantissa y * 2 ^ (exponent y - e) in
        let R := Z.rem X Y in
        if decide (R = 0) then Ok (S754_zero (is_negative y))
        else
          let r := binary_normalize prec emax R e false in
          if xorb (is_negative y) (is_negative r)
          then Ok (SFadd prec emax r y)
          else Ok r
    end.

(** An arithmetic operator: exact on two [int]s, else on the operands as
    floats. *)
Definition arith (on_int : Z → Z → result num)
    (on_float : spec_float → spec_float → result spec_float)
    (x y : num) : result num :=
  match x, y with
  | Int a, Int b => on_int a b
  | _, _ =>
      fx ← to_float x;
      fy ← to_float y;
      f ← on_float fx fy;
      Ok (Float f)
  end.

Definition mul : num → num → result num :=
  arith (λ a b, Ok (Int (a * b))) (λ x y, Ok (SFmul prec emax x y)).

Definition add : num → num → result num :=
  arith (λ a b, Ok (Int (a + b))) (λ x y, Ok (SFadd prec emax x y)).

Definition sub : num → num → result num :=
  arith (λ a b, Ok (Int (a - b))) (λ x y, Ok (SFsub prec emax x y)).

Definition modulo : num → num → result num :=
  arith (λ a b, if decide (b = 0) then Raise ZeroDivisionError
                else Ok (Int (a `mod` b)))
        float_mod.

Definition truediv : num → num → result num :=
  arith (λ a b, f ← int_truediv a b; Ok (Float f))
        (λ x y, if is_zero y then Raise ZeroDivisionError
                else Ok (SFdiv prec emax x y)).

(** Comparison of a float with an [int] is exact, without conversion. *)
Definition compare_float_int (f : spec_float) (z : Z) : option comparison :=
  match f with
  | S754_nan => None
  | S754_infinity s => Some (if s then Lt else Gt)
  | S754_zero _ => Some (0 ?= z)
  | S754_finite _ _ e =>
      if decide (0 ≤ e) then Some (mantissa f * 2 ^ e ?= z)
      else Some (mantissa f ?= z * 2 ^ (- e))
  end.

Definition compare (x y : num) : option comparison :=
  match x, y with
  | Int a, Int b => Some (a ?= b)
  | Float f, Float g => SFcompare f g
  | Float f, Int b => compare_float_int f b
  | Int a, Float g => CompOpp <$> compare_float_int g a
  end.

Definition le (x y : num) : bool :=
  match compare x y with
  | Some (Lt | Eq) => true
  | _ => false
  end.

Definition lt (x y : num) : bool :=
  match compare x y with
  | Some Lt => true
  | _ => false
  end.

Definition numeric : Generic.Numeric num :=
  {| Generic.n_one := Int 1;
     Generic.n_mul := mul;
     Generic.n_add := add;
     Generic.n_sub := sub;
     Generic.n_mod := modulo;
     Generic.n_truediv := truediv;
     Generic.n_le := le;
     Generic.n_lt := lt |}.

(** A subgraph whose fields are Python [int]s. *)
Definition ints (arrays : phis_t) (variables : list string)
    (loc grid dims : list Z) : Generic.subgraph num :=
  {| Generic.input_arrays := arrays;
     Generic.variables := variables;
     Generic.loc_domain_dims := Int <$> loc;
     Generic.p_grid := Int <$> grid;
     Generic.dimensions_ordered := Int <$> dims |}.

(** The integer a float stands for, when it stands for one. *)
Definition float_of_Z (z : Z) : num := Float (round_Z z).

End Python.

(** ** Inputs with Python [int]s *)

(** One dimension of [2^60] ranks with one point each; fields and ranks are
    Python [int]s. *)
Definition example_huge : Generic.subgraph Python.num :=
  Python.ints [("A", [("i", ["i"])])] ["i"] [1] [2 ^ 60] [2 ^ 60].


(** A second dimension of three ranks behind it. *)
Definition example_huge_2d : Generic.subgraph Python.num :=
  Python.ints [] ["i"; "j"] [1; 1] [2 ^ 60; 3] [2 ^ 60; 3].

(** A grid beyond the range of a float. *)
Definition example_beyond_float : Generic.subgraph Python.num :=
  Python.ints [] ["i"] [1] [10 ^ 401] [10 ^ 401].

(** Concrete example A with Python [int] fields. *)
Definition example_A_ints (arrays : phis_t) : Generic.subgraph Python.num :=
  Python.ints arrays ["i"; "j"] [4; 4] [2; 2] [8; 8].

(** Ownership of a point, for the method run on exact integers. *)
Definition exact_owns (self : IOAnalysisSubgraph) (r : Z) (xs : list Z) : Prop :=
  ∀ i x, xs !! i = Some x →
         ∃ rg, Generic.dim_range (H := Generic.exact) (of_exact self) r i
               = Some rg ∧ in_range x rg.

(** ** Further specification-side definitions *)

(** Row-major ranking, the inverse of the unranking: the rank whose
    coordinates are [coords] on [grid]. *)
Fixpoint rank_of (grid coords : list Z) : Z :=
  match grid, coords with
  | _ :: suffix, c :: cs => c * prod suffix + rank_of suffix cs
  | _, _ => 0
  end.

(** Every coordinate lies inside its grid factor. *)
Definition within_grid (grid coords : list Z) : Prop :=
  Forall2 (λ g c, 0 ≤ c < g) grid coords.

(** [sep.join(pieces)]. *)
Fixpoint join (sep : ascii) (pieces : list string) : string :=
  match pieces with
  | [] => EmptyString
  | [p] => p
  | p :: ps => String.append p (String sep (join sep ps))
  end.

(** The character occurs in the string. *)
Fixpoint has_char (c : ascii) (s : string) : bool :=
  match s with
  | EmptyString => false
  | String c' s' => Ascii.eqb c' c || has_char c s'
  end.

(** Events that open, configure or close the solver session. *)
Definition session_event (ev : event) : bool :=
  match ev with
  | ParseParams | NewSolver _ | StartSolver _ | SetTimeout _ | EndSolver => true
  | _ => false
  end.

Definition not_session_event (ev : event) : Prop := session_event ev = false.

(** The calls of [init_decomposition] for the subgraphs, in order. *)
Definition init_events (live : list Subgraph.t) : list event :=
  map (λ subgr, InitDecomposition (Subgraph.name subgr)) live.

(** The solver a call builds from the parsed configuration. *)
Definition solver_of {DecompositionParams : Type}
    (params : SOAPParameters DecompositionParams) : Solver :=
  {| cached_only := only_cached params;
     caching_solutions := caching_solver_solutions params |}.

(** A one-dimensional decomposition asked for a grid it does not have. *)
Definition example_short_grid : IOAnalysisSubgraph :=
  {| name := 0; Q := Symbol "Q"; rho := Symbol "rho";
     input_arrays := [("A", [("i", ["i"])])];
     variables := ["i"; "j"];
     inner_tile := []; outer_tile := [];
     loc_domain_dims := [4; 4];
     p_grid := [2];
     dimensions_ordered := [8; 8] |}.

(** Every range stored in a distribution comes from the table. *)
Definition from_table (tbl : gmap string range)
    (pd : gmap string (gmap string range)) : Prop :=
  ∀ arr entry k v, pd !! arr = Some entry → entry !! k = Some v →
                   tbl !! k = Some v.

(** The calls that open the session of a call made without parameters;
    none when the caller supplies them. *)
Definition opening_events {DecompositionParams : Type}
    (supplied : option (SOAPParameters DecompositionParams))
    (params : SOAPParameters DecompositionParams) : list event :=
  match supplied with
  | None => [ParseParams; NewSolver (solver_of params);
             StartSolver (remoteMatlab params); SetTimeout 300]
  | Some _ => []
  end.

(** Rank [r] owns the point [xs]: each coordinate of the point lies in the
    range the rank gets in that dimension. *)
Definition owns (self : IOAnalysisSubgraph) (r : Z) (xs : list Z) : Prop :=
  ∀ i x, xs !! i = Some x →
         ∃ rg, dim_range self r i = Some rg ∧ in_range x rg.

(** The point lies in the global domain. *)
Definition in_domain (self : IOAnalysisSubgraph) (xs : list Z) : Prop :=
  Forall2 (λ x g, 0 ≤ x < g) xs (dimensions_ordered self).

(** ** Arithmetic of the unranking *)

Section Unranking.

Lemma foldl_mul (l : list Z) (a : Z) : foldl Z.mul a l = a * foldl Z.mul 1 l.
Proof.
  revert a. induction l as [|x l IH]; intros a; simpl; [lia|].
  rewrite (IH (a * x)), (IH (1 * x)). lia.
Qed.

Lemma prod_nil : prod [] = 1.
Proof. reflexivity. Qed.

Lemma prod_cons (x : Z) (l : list Z) : prod (x :: l) = x * prod l.
Proof. unfold prod. simpl. rewrite foldl_mul. lia. Qed.

Lemma prod_app (l k : list Z) : prod (l ++ k) = prod l * prod k.
Proof.
  induction l as [|x l IH]; simpl.
  - rewrite prod_nil. lia.
  - rewrite !prod_cons, IH. lia.
Qed.

Lemma prod_pos (l : list Z) : Forall (λ p, 0 < p) l → 0 < prod l.
Proof.
  induction 1 as [|x l Hx _ IH]; [rewrite prod_nil; lia|].
  rewrite prod_cons. lia.
Qed.

Lemma prod_cons_nonzero (x : Z) (l : list Z) : prod (x :: l) ≠ 0 → prod l ≠ 0.
Proof. rewrite prod_cons. lia. Qed.

(** The numerator of [div] is a multiple of the divisor, so the division
    is exact and its quotient is the floor of [x / y]. *)
Lemma div_exact (x y : Z) :
  y ≠ 0 → div x y = Ok (x / y) ∧ x - x `mod` y = (x / y) * y.
Proof.
  intros Hy. unfold div. destruct (decide (y = 0)) as [|_]; [done|].
  assert (E : x - x `mod` y = (x / y) * y) by (rewrite Z.mod_eq by done; lia).
  split; [|done]. rewrite E, Z.div_mul by done. done.
Qed.

Lemma div_zero (x : Z) : div x 0 = Raise ZeroDivisionError.
Proof. reflexivity. Qed.

(** The loop computes the unranking of the specification whenever no
    suffix product vanishes. *)
Lemma p_pos_loop_unrank (grid : list Z) (r : Z) :
  prod grid ≠ 0 → p_pos_loop grid r = Ok (unrank_spec grid r).
Proof.
  revert r. induction grid as [|g rest IH]; intros r Hne; [done|].
  apply prod_cons_nonzero in Hne as Hrest.
  simpl. destruct (div_exact r (prod rest) Hrest) as [-> _]. simpl.
  rewrite IH by done. done.
Qed.

(** Closed form of a coordinate on a positive grid. *)
Lemma unrank_spec_lookup (grid : list Z) (r : Z) (i : nat) (g : Z) :
  Forall (λ p, 0 < p) grid →
  0 ≤ r < prod grid →
  grid !! i = Some g →
  unrank_spec grid r !! i = Some ((r / prod (drop (S i) grid)) `mod` g).
Proof.
  revert r i. induction grid as [|g0 rest IH]; intros r i Hpos Hr Hi; [done|].
  apply Forall_cons in Hpos as [Hg0 Hpos].
  pose proof (prod_pos _ Hpos) as HS.
  rewrite prod_cons in Hr. simpl unrank_spec.
  destruct i as [|i]; simpl in Hi |- *.
  - injection Hi as ->. rewrite drop_0. f_equal. symmetry.
    apply Z.mod_small. split; [apply Z.div_pos; lia|].
    apply Z.div_lt_upper_bound; lia.
  - assert (Hrem : r - r / prod rest * prod rest = r `mod` prod rest)
      by (rewrite Z.mod_eq by lia; lia).
    rewrite (IH _ _ Hpos); [| rewrite Hrem; apply Z.mod_pos_bound; lia | done].
    f_equal.
    pose proof (take_drop_middle _ _ _ Hi) as Hsplit.
    assert (HT : 0 < prod (drop (S i) rest)).
    { apply prod_pos. rewrite <- Hsplit in Hpos.
      apply Forall_app in Hpos as [_ Hpos]. by apply Forall_cons in Hpos as [_ ?]. }
    assert (E : prod rest
                = prod (take i rest) * g * prod (drop (S i) rest)).
    { rewrite <- Hsplit at 1. rewrite prod_app, prod_cons. lia. }
    set (T := prod (drop (S i) rest)) in *.
    replace (r - r / prod rest * prod rest)
      with (r + (- (r / prod rest) * prod (take i rest) * g) * T)
      by (rewrite E at 3; lia).
    rewrite Z.div_add by lia.
    replace (r / T + - (r / prod rest) * prod (take i rest) * g)
      with (r / T + (- (r / prod rest) * prod (take i rest)) * g) by lia.
    apply Z_mod_plus_full.
Qed.

Lemma unrank_spec_length (grid : list Z) (r : Z) :
  length (unrank_spec grid r) = length grid.
Proof. revert r. induction grid; intros; simpl; auto. Qed.

(** Every coordinate lies inside its grid factor. *)
Lemma unrank_spec_bounds (grid : list Z) (r : Z) (i : nat) (g c : Z) :
  Forall (λ p, 0 < p) grid →
  0 ≤ r < prod grid →
  grid !! i = Some g →
  unrank_spec grid r !! i = Some c →
  0 ≤ c < g.
Proof.
  intros Hpos Hr Hi Hc.
  rewrite (unrank_spec_lookup _ _ _ _ Hpos Hr Hi) in Hc. injection Hc as <-.
  apply Z.mod_pos_bound.
  eapply Forall_lookup_1 in Hpos; [|exact Hi]. done.
Qed.

(** Every coordinate of a dimension is the coordinate of some rank. *)
Lemma unrank_spec_onto (grid : list Z) (i : nat) (g c : Z) :
  Forall (λ p, 0 < p) grid →
  grid !! i = Some g →
  0 ≤ c < g →
  ∃ r, 0 ≤ r < prod grid ∧ unrank_spec grid r !! i = Some c.
Proof.
  intros Hpos Hi Hc.
  pose proof (take_drop_middle _ _ _ Hi) as Hsplit.
  assert (Hpos' := Hpos). rewrite <- Hsplit in Hpos'.
  apply Forall_app in Hpos' as [Htake Hdrop].
  apply Forall_cons in Hdrop as [Hg Hdrop].
  pose proof (prod_pos _ Htake) as HA. pose proof (prod_pos _ Hdrop) as HT.
  assert (E : prod grid = prod (take i grid) * g * prod (drop (S i) grid)).
  { rewrite <- Hsplit at 1. rewrite prod_app, prod_cons. lia. }
  exists (c * prod (drop (S i) grid)).
  assert (Hr : 0 ≤ c * prod (drop (S i) grid) < prod grid).
  { rewrite E. set (T := prod (drop (S i) grid)) in *.
    set (A := prod (take i grid)) in *.
    assert (c * T + T ≤ g * T) by nia.
    assert (g * T ≤ A * (g * T)) by nia. lia. }
  split; [done|].
  rewrite (unrank_spec_lookup _ _ _ _ Hpos Hr Hi).
  rewrite Z.div_mul by lia. by rewrite Z.mod_small.
Qed.

End Unranking.

(** ** The per-dimension range table *)

Section RangeTable.

Lemma zip_py_length {A B} (l : list A) (k : list B) :
  length (zip_py l k) = Nat.min (length l) (length k).
Proof.
  revert k. induction l as [|a l IH]; intros [|b k]; simpl; auto.
Qed.

Lemma zip_py_lookup {A B} (l : list A) (k : list B) (i : nat) (a : A) (b : B) :
  zip_py l k !! i = Some (a, b) ↔ l !! i = Some a ∧ k !! i = Some b.
Proof.
  revert k i. induction l as [|a' l IH]; intros [|b' k] i; simpl.
  - split; [done|]. by intros [? _].
  - split; [done|]. by intros [? _].
  - split; [done|]. intros [_ ?]. by destruct i.
  - destruct i as [|i]; simpl; [|apply IH].
    split; [by intros [= -> ->]|]. by intros [[= ->] [= ->]].
Qed.

Lemma index_lookup {A} (l : list A) (i : nat) (x : A) :
  l !! i = Some x → index l i = Ok x.
Proof. unfold index. by intros ->. Qed.

(** With enough coordinates and local extents the comprehension yields one
    item per zipped pair, holding the range of the specification. *)
Lemma iter_ranges_items_ok (pos loc : list Z) (i : nat)
    (vds : list (string * Z)) :
  (i + length vds ≤ length pos)%nat →
  (i + length vds ≤ length loc)%nat →
  ∃ items,
    iter_ranges_items pos loc i vds = Ok items ∧
    length items = length vds ∧
    ∀ k var g, vds !! k = Some (var, g) →
      ∃ c l, pos !! (i + k)%nat = Some c ∧ loc !! (i + k)%nat = Some l ∧
             items !! k = Some (var, range_spec c l g).
Proof.
  revert i. induction vds as [|[var g] vds IH]; intros i Hp Hl; simpl in *.
  - exists []. by split_and!.
  - destruct (lookup_lt_is_Some_2 pos i) as [c Hc]; [lia|].
    destruct (lookup_lt_is_Some_2 loc i) as [l Hlo]; [lia|].
    destruct (IH (S i)) as (items & Hit & Hlen & Hk); [lia..|].
    rewrite (index_lookup _ _ _ Hc), (index_lookup _ _ _ Hlo). simpl.
    rewrite Hit. simpl.
    exists ((var, range_spec c l g) :: items). split_and!; [done|simpl; lia|].
    intros [|k] var' g' Hv; simpl in Hv.
    + injection Hv as <- <-. exists c, l. rewrite Nat.add_0_r. done.
    + destruct (Hk _ _ _ Hv) as (c' & l' & ? & ? & ?).
      exists c', l'. rewrite <- Nat.add_succ_comm. done.
Qed.

(** A key that occurs once among the items is bound to its item. *)
Lemma dict_of_items_snoc {V} (items : list (string * V)) (k : string) (v : V) :
  dict_of_items (items ++ [(k, v)]) = <[k := v]> (dict_of_items items).
Proof. unfold dict_of_items. by rewrite foldl_app. Qed.

Lemma dict_of_items_lookup_None {V} (items : list (string * V)) (k : string) :
  k ∉ items.*1 → dict_of_items items !! k = None.
Proof.
  induction items as [|[k' v'] items IH] using rev_ind; [done|].
  rewrite fmap_app, dict_of_items_snoc. simpl. intros Hk.
  rewrite not_elem_of_app, list_elem_of_singleton in Hk. destruct Hk as [? ?].
  rewrite lookup_insert_ne by done. auto.
Qed.

Lemma dict_of_items_lookup {V} (items : list (string * V)) (i : nat)
    (k : string) (v : V) :
  NoDup items.*1 → items !! i = Some (k, v) → dict_of_items items !! k = Some v.
Proof.
  revert i. induction items as [|[k' v'] items IH] using rev_ind; [done|].
  intros i. rewrite fmap_app, dict_of_items_snoc. simpl.
  intros [Hnd [Hdisj _]]%NoDup_app Hi.
  destruct (decide (i < length items)%nat) as [Hlt|Hge].
  - rewrite lookup_app_l in Hi by done.
    assert (k ∈ items.*1).
    { apply list_elem_of_fmap. exists (k, v). split; [done|].
      by eapply list_elem_of_lookup_2. }
    rewrite lookup_insert_ne; [by eapply IH|].
    intros ->. apply (Hdisj k); [done|]. by apply list_elem_of_singleton.
  - rewrite lookup_app_r in Hi by lia.
    destruct (i - length items)%nat; [|done].
    injection Hi as -> ->. by rewrite lookup_insert_eq.
Qed.

End RangeTable.

(** ** Claims on the rank decomposition *)

Section Decomposition.

Implicit Types (self : IOAnalysisSubgraph) (r x : Z) (i N : nat).

(** On a rank below the rank count no suffix product vanishes. *)
Lemma p_pos_unrank self r :
  0 ≤ r < prod (p_grid self) →
  p_pos self r = Ok (unrank_spec (p_grid self) r).
Proof. intros Hr. apply p_pos_loop_unrank. lia. Qed.

(** With aligned sequences every dimension gets the range of its
    coordinate. *)
Lemma iter_ranges_list_spec self N r :
  length (variables self) = N →
  length (p_grid self) = N →
  length (loc_domain_dims self) = N →
  length (dimensions_ordered self) = N →
  0 ≤ r < prod (p_grid self) →
  ∃ items,
    iter_ranges_list self r = Ok items ∧ length items = N ∧
    ∀ i var l g,
      variables self !! i = Some var →
      loc_domain_dims self !! i = Some l →
      dimensions_ordered self !! i = Some g →
      ∃ coord, unrank_spec (p_grid self) r !! i = Some coord ∧
               items !! i = Some (var, range_spec coord l g).
Proof.
  intros Hv Hp Hl Hd Hr. unfold iter_ranges_list.
  rewrite (p_pos_unrank _ _ Hr). simpl.
  destruct (iter_ranges_items_ok (unrank_spec (p_grid self) r)
              (loc_domain_dims self) 0
              (zip_py (variables self) (dimensions_ordered self)))
    as (items & Hit & Hlen & Hk).
  { rewrite zip_py_length, unrank_spec_length. lia. }
  { rewrite zip_py_length. lia. }
  exists items. split_and!; [done|rewrite Hlen, zip_py_length; lia|].
  intros i var l g Hvar Hloc Hdim.
  destruct (Hk i var g) as (c & l' & Hc & Hl' & Hi).
  { by apply zip_py_lookup. }
  simpl in Hc, Hl'. rewrite Hloc in Hl'. injection Hl' as <-.
  by exists c.
Qed.

Lemma dim_range_spec self N r i g :
  valid_decomposition self N →
  0 ≤ r < prod (p_grid self) →
  dimensions_ordered self !! i = Some g →
  ∃ c l p,
    loc_domain_dims self !! i = Some l ∧ p_grid self !! i = Some p ∧
    0 < l ∧ g ≤ l * p ∧ 0 ≤ c < p ∧
    dim_coord self r i = Some c ∧
    dim_range self r i = Some (range_spec c l g).
Proof.
  intros (Hv & Hp & Hl & Hd & Hpos & Hlpos & Hcov) Hr Hg.
  pose proof (lookup_lt_Some _ _ _ Hg) as Hi.
  destruct (lookup_lt_is_Some_2 (variables self) i) as [var Hvar]; [lia|].
  destruct (lookup_lt_is_Some_2 (loc_domain_dims self) i) as [l Hloc]; [lia|].
  destruct (lookup_lt_is_Some_2 (p_grid self) i) as [p Hgrid]; [lia|].
  destruct (iter_ranges_list_spec self N r Hv Hp Hl Hd Hr)
    as (items & Hit & _ & Hk).
  destruct (Hk i var l g Hvar Hloc Hg) as (c & Hc & Hitem).
  pose proof (unrank_spec_bounds _ _ _ _ _ Hpos Hr Hgrid Hc) as Hb.
  exists c, l, p. split_and!; try done; try lia.
  - by eapply (Forall_lookup_1 _ _ _ _ Hlpos).
  - by eapply Hcov.
  - unfold dim_coord. by rewrite (p_pos_unrank _ _ Hr).
  - unfold dim_range. rewrite Hit, Hitem. done.
Qed.

Lemma in_range_spec x c l g :
  in_range x (range_spec c l g) ↔ c * l ≤ x ∧ x < (c + 1) * l ∧ x < g.
Proof. unfold in_range, range_spec. simpl. lia. Qed.

(** Coverage and partition on exact integers: in a valid decomposition of
    length [N], every rank below the rank count gets a range in dimension
    [i]; a
    point lies in [[0, globalDims[i])] exactly when it lies in the range
    of some such rank; and the ranges of two ranks with distinct
    coordinates in dimension [i] share no point. *)
Theorem coverage_and_partition self N i g :
  valid_decomposition self N →
  dimensions_ordered self !! i = Some g →
  (∀ r, 0 ≤ r < prod (p_grid self) → is_Some (dim_range self r i)) ∧
  (∀ x, 0 ≤ x < g ↔
        ∃ r rg, 0 ≤ r < prod (p_grid self) ∧
                dim_range self r i = Some rg ∧ in_range x rg) ∧
  (∀ r1 r2 c1 c2 rg1 rg2 x,
      0 ≤ r1 < prod (p_grid self) → 0 ≤ r2 < prod (p_grid self) →
      dim_coord self r1 i = Some c1 → dim_coord self r2 i = Some c2 →
      c1 ≠ c2 →
      dim_range self r1 i = Some rg1 → dim_range self r2 i = Some rg2 →
      ¬ (in_range x rg1 ∧ in_range x rg2)).
Proof.
  intros Hvalid Hg. split_and!.
  - intros r Hr.
    destruct (dim_range_spec _ _ _ _ _ Hvalid Hr Hg)
      as (c & l & p & _ & _ & _ & _ & _ & _ & ->). by eexists.
  - intros x. split.
    + intros Hx.
      assert (Hvalid' := Hvalid).
      destruct Hvalid' as (_ & Hp & Hl & Hd & Hpos & Hlpos & Hcov).
      pose proof (lookup_lt_Some _ _ _ Hg) as Hi.
      destruct (lookup_lt_is_Some_2 (loc_domain_dims self) i) as [l Hloc];
        [lia|].
      destruct (lookup_lt_is_Some_2 (p_grid self) i) as [p Hgrid]; [lia|].
      assert (0 < l) by by eapply (Forall_lookup_1 _ _ _ _ Hlpos).
      assert (g ≤ l * p) by by eapply Hcov.
      assert (Hc : 0 ≤ x / l < p).
      { split; [apply Z.div_pos; lia|]. apply Z.div_lt_upper_bound; lia. }
      destruct (unrank_spec_onto _ _ _ _ Hpos Hgrid Hc) as (r & Hr & Hcoord).
      destruct (dim_range_spec _ _ _ _ _ Hvalid Hr Hg)
        as (c & l' & p' & Hloc' & _ & _ & _ & _ & Hdc & Hdr).
      rewrite Hloc in Hloc'. injection Hloc' as <-.
      unfold dim_coord in Hdc. rewrite (p_pos_unrank _ _ Hr), Hcoord in Hdc.
      injection Hdc as <-.
      exists r, (range_spec (x / l) l g). split_and!; [lia|lia|done|].
      apply in_range_spec.
      pose proof (Z.mul_div_le x l). pose proof (Z.mod_pos_bound x l).
      pose proof (Z.mod_eq x l). split_and!; lia.
    + intros (r & rg & Hr & Hdr & Hin).
      destruct (dim_range_spec _ _ _ _ _ Hvalid Hr Hg)
        as (c & l & p & _ & _ & ? & _ & ? & _ & Hdr').
      rewrite Hdr in Hdr'. injection Hdr' as ->.
      apply in_range_spec in Hin. nia.
  - intros r1 r2 c1 c2 rg1 rg2 x Hr1 Hr2 Hc1 Hc2 Hne Hrg1 Hrg2 [Hin1 Hin2].
    destruct (dim_range_spec _ _ _ _ _ Hvalid Hr1 Hg)
      as (c & l & p & Hloc & _ & ? & _ & _ & Hdc & Hdr).
    rewrite Hc1 in Hdc. injection Hdc as <-.
    rewrite Hrg1 in Hdr. injection Hdr as ->.
    destruct (dim_range_spec _ _ _ _ _ Hvalid Hr2 Hg)
      as (c & l' & p' & Hloc' & _ & _ & _ & _ & Hdc & Hdr).
    rewrite Hloc in Hloc'. injection Hloc' as <-.
    rewrite Hc2 in Hdc. injection Hdc as <-.
    rewrite Hrg2 in Hdr. injection Hdr as ->.
    apply in_range_spec in Hin1, Hin2. nia.
Qed.

Lemma example_uneven_valid : valid_decomposition example_uneven 1.
Proof.
  unfold valid_decomposition. simpl. split_and!; try done.
  - repeat constructor.
  - repeat constructor.
  - intros [|i] l p g; simpl; [|done]. intros [= <-] [= <-] [= <-]. lia.
Defined.

Lemma coverage_and_partition_witness :
  valid_decomposition example_uneven 1 ∧
  dimensions_ordered example_uneven !! 0%nat = Some 10 ∧
  (∀ x, 0 ≤ x < 10 ↔
        ∃ r rg, 0 ≤ r < prod (p_grid example_uneven) ∧
                dim_range example_uneven r 0 = Some rg ∧ in_range x rg).
Proof.
  split; [exact example_uneven_valid|]. split; [reflexivity|].
  apply (coverage_and_partition example_uneven 1 0 10);
    [exact example_uneven_valid | reflexivity].
Defined.

End Decomposition.

Section Unranked.

Implicit Types (self : IOAnalysisSubgraph) (r : Z) (N : nat).

Lemma get_data_decomposition_busy self r :
  r < prod (p_grid self) →
  get_data_decomposition self r
  = (tbl ← iter_ranges self r; array_loop tbl (input_arrays self) None ∅, []).
Proof.
  intros Hr. unfold get_data_decomposition.
  destruct (decide (prod (p_grid self) ≤ r)); [lia|done].
Qed.

(** On exact integers, for a rank below the rank count, the coordinates
    computed by the loop are the row-major mixed-radix unranking of the
    specification
    (floor of the remaining rank over the suffix product, the remaining
    rank losing [coord * suffixProduct]); dimension [i] is assigned
    [[coord[i] * localDomainDims[i],
      min((coord[i] + 1) * localDomainDims[i], globalDims[i]))], and these
    items are the table the decomposition resolves accesses against; on
    concrete example A ranks 0 to 3 receive the listed ranges. *)
Theorem unranking_and_ranges self N r :
  length (variables self) = N →
  length (p_grid self) = N →
  length (loc_domain_dims self) = N →
  length (dimensions_ordered self) = N →
  0 ≤ r < prod (p_grid self) →
  p_pos self r = Ok (unrank_spec (p_grid self) r) ∧
  (∃ items,
      iter_ranges_list self r = Ok items ∧ length items = N ∧
      get_data_decomposition self r
      = (array_loop (dict_of_items items) (input_arrays self) None ∅, []) ∧
      ∀ i var l g,
        variables self !! i = Some var →
        loc_domain_dims self !! i = Some l →
        dimensions_ordered self !! i = Some g →
        ∃ coord, unrank_spec (p_grid self) r !! i = Some coord ∧
                 items !! i = Some (var, range_spec coord l g)) ∧
  (∀ arrays,
      iter_ranges (example_A arrays) 0
      = Ok (<["j" := (0, 4)]> {["i" := (0, 4)]}) ∧
      iter_ranges (example_A arrays) 1
      = Ok (<["j" := (4, 8)]> {["i" := (0, 4)]}) ∧
      iter_ranges (example_A arrays) 2
      = Ok (<["j" := (0, 4)]> {["i" := (4, 8)]}) ∧
      iter_ranges (example_A arrays) 3
      = Ok (<["j" := (4, 8)]> {["i" := (4, 8)]})).
Proof.
  intros Hv Hp Hl Hd Hr. split_and!.
  - by apply p_pos_unrank.
  - destruct (iter_ranges_list_spec self N r Hv Hp Hl Hd Hr)
      as (items & Hit & Hlen & Hk).
    exists items. split_and!; try done.
    rewrite get_data_decomposition_busy by lia.
    unfold iter_ranges. rewrite Hit. done.
  - intros arrays. split_and!; vm_compute; reflexivity.
Qed.

Lemma unranking_and_ranges_witness :
  (0 ≤ 3 < prod (p_grid (example_A []))) ∧
  p_pos (example_A []) 3 = Ok (unrank_spec (p_grid (example_A [])) 3).
Proof.
  assert (Hr : 0 ≤ 3 < prod (p_grid (example_A []))) by (vm_compute; done).
  split; [exact Hr|].
  apply (unranking_and_ranges (example_A []) 2 3); try reflexivity.
  exact Hr.
Defined.



End Unranked.

(** ** The per-array composition loops *)

Section Composition.

Implicit Types (tbl entry : gmap string range) (its : list string).
Implicit Types (accesses : accesses_t) (arrays : phis_t).
Implicit Types (rngs : option (gmap string range)).
Implicit Types (pd d : gmap string (gmap string range)).

(** The innermost loop either binds every symbol to its range, leaving the
    other keys alone, or raises [KeyError] at a symbol without a range. *)
Lemma resolve_loop_cases tbl its (rngs0 : gmap string range) :
  (resolvable tbl its ∧
   ∃ entry, resolve_loop tbl its rngs0 = Ok entry ∧
     ∀ k, entry !! k = if decide (k ∈ its) then tbl !! k else rngs0 !! k)
  ∨ (∃ it, it ∈ its ∧ tbl !! it = None ∧
           resolve_loop tbl its rngs0 = Raise (KeyError it)).
Proof.
  revert rngs0. induction its as [|it its IH]; intros rngs0; simpl.
  - left. split; [constructor|]. exists rngs0. split; [done|].
    intros k. destruct (decide (k ∈ [])) as [Hk|]; [|done]. by inversion Hk.
  - destruct (tbl !! it) as [r|] eqn:Hit.
    + destruct (IH (<[it := r]> rngs0)) as [(Hres & entry & -> & Hk)|Hraise].
      * left. split; [constructor; [by rewrite Hit|done]|].
        exists entry. split; [done|]. intros k. rewrite Hk.
        destruct (decide (k ∈ its)) as [Hin|Hnin].
        { rewrite decide_True by (by right). done. }
        destruct (decide (k = it)) as [->|Hne].
        { rewrite decide_True by left. by rewrite lookup_insert_eq. }
        rewrite decide_False, lookup_insert_ne; [done|done|].
        intros [->|?]%elem_of_cons; done.
      * right. destruct Hraise as (it' & ? & ? & ?).
        exists it'. split_and!; [by right|done|done].
    + right. exists it. split_and!; [left|done|done].
Qed.

Lemma resolve_loop_resolved tbl (access : string) entry :
  resolve_loop tbl (split star access) ∅ = Ok entry → resolved tbl access entry.
Proof.
  intros Hrun k.
  destruct (resolve_loop_cases tbl (split star access) ∅)
    as [(_ & entry' & Hrun' & Hk)|(it & _ & _ & Hraise)]; [|congruence].
  rewrite Hrun in Hrun'. injection Hrun' as <-. rewrite Hk.
  by destruct (decide (k ∈ split star access)).
Qed.

(** The loop over the accesses of one array either raises [KeyError] at a
    symbol without a range, or leaves [rngs] as it found it when there is
    no access, and bound to the resolution of the last access otherwise. *)
Lemma access_loop_cases tbl accesses rngs :
  (∃ access pars it,
      (access, pars) ∈ accesses ∧ it ∈ split star access ∧
      tbl !! it = None ∧
      access_loop tbl accesses rngs = Raise (KeyError it))
  ∨ (accesses_resolvable tbl accesses ∧
     ∃ rngs',
       access_loop tbl accesses rngs = Ok rngs' ∧
       (accesses = [] → rngs' = rngs) ∧
       (accesses ≠ [] → is_Some rngs') ∧
       (∀ before t pars, accesses = before ++ [(t, pars)] →
          ∃ entry, rngs' = Some entry ∧ resolved tbl t entry)).
Proof.
  revert rngs. induction accesses as [|[access pars] accesses IH];
    intros rngs; simpl.
  - right. split; [constructor|]. exists rngs. split_and!; try done.
    intros [|??] ???; discriminate.
  - destruct (resolve_loop_cases tbl (split star access) ∅)
      as [(Hres & entry & Hrun & Hk)|(it & Hin & Hnone & Hraise)].
    + rewrite Hrun. simpl.
      destruct (IH (Some entry))
        as [(a & p & it & Hin & Hit & Hnone & Hraise)
           |(Hall & rngs' & Hrun' & Hnil & Hcons & Hlast)].
      * left. exists a, p, it. split_and!; [by right|done..].
      * right. split; [by constructor|]. exists rngs'.
        split_and!; [done|done| |].
        { intros _. destruct accesses as [|ap accesses].
          - specialize (Hnil eq_refl). subst rngs'. by eexists.
          - by apply Hcons. }
        intros [|b before] t pars' Heq; simpl in Heq.
        { injection Heq as -> -> ->. specialize (Hnil eq_refl). subst rngs'.
          exists entry. split; [done|]. by apply resolve_loop_resolved. }
        injection Heq as _ ->. by eapply Hlast.
    + left. exists access, pars, it. rewrite Hraise.
      split_and!; [left|done..].
Qed.

(** Keys that are not among the arrays keep their entry. *)
Lemma array_loop_frame tbl arrays rngs pd d (k : string) :
  array_loop tbl arrays rngs pd = Ok d → k ∉ arrays.*1 → d !! k = pd !! k.
Proof.
  revert rngs pd. induction arrays as [|[arr accesses] arrays IH];
    intros rngs pd; simpl.
  - by intros [= ->].
  - intros Hrun [Hne Hk]%not_elem_of_cons.
    destruct (access_loop tbl accesses rngs) as [[entry|]|]; simpl in Hrun;
      try discriminate.
    rewrite (IH _ _ Hrun Hk). by rewrite lookup_insert_ne.
Qed.

(** A successful run over [before ++ rest] passes through a state from
    which the run over [rest] gives the same result. *)
Lemma array_loop_app tbl (before rest : phis_t) rngs pd d :
  array_loop tbl (before ++ rest) rngs pd = Ok d →
  ∃ rngs' pd', array_loop tbl rest rngs' pd' = Ok d.
Proof.
  revert rngs pd. induction before as [|[arr accesses] before IH];
    intros rngs pd; simpl.
  - intros. by exists rngs, pd.
  - intros Hrun.
    destruct (access_loop tbl accesses rngs) as [[entry|]|]; simpl in Hrun;
      try discriminate.
    by eapply IH.
Qed.

(** What the code stores for an array: the resolution of its last access
    term, and nothing of the terms before it. *)
Lemma array_loop_last_access tbl (before after : phis_t) (arr : string)
    (terms : accesses_t) (t : string) (pars : list string) rngs pd d :
  NoDup (before ++ (arr, terms ++ [(t, pars)]) :: after).*1 →
  array_loop tbl (before ++ (arr, terms ++ [(t, pars)]) :: after) rngs pd
  = Ok d →
  ∃ entry, d !! arr = Some entry ∧ resolved tbl t entry.
Proof.
  intros Hnd Hrun.
  apply array_loop_app in Hrun as (rngs' & pd' & Hrun). simpl in Hrun.
  destruct (access_loop_cases tbl (terms ++ [(t, pars)]) rngs')
    as [(? & ? & ? & _ & _ & _ & Hraise)
       |(_ & rngs'' & Hacc & _ & _ & Hlast)].
  { rewrite Hraise in Hrun. discriminate. }
  rewrite Hacc in Hrun. simpl in Hrun.
  destruct (Hlast terms t pars eq_refl) as (entry & -> & Hres).
  exists entry. split; [|done].
  rewrite fmap_app, fmap_cons in Hnd. simpl in Hnd.
  apply NoDup_app in Hnd as (_ & _ & Hnd). apply NoDup_cons in Hnd as [Hnin _].
  rewrite (array_loop_frame _ _ _ _ _ _ Hrun Hnin).
  by rewrite lookup_insert_eq.
Qed.

(** An array without access terms that follows another array is stored
    with the entry of that array. *)
Lemma array_loop_empty_inherits tbl (before after : phis_t)
    (a1 a2 : string) (terms : accesses_t) rngs pd d :
  NoDup (before ++ (a1, terms) :: (a2, []) :: after).*1 →
  array_loop tbl (before ++ (a1, terms) :: (a2, []) :: after) rngs pd = Ok d →
  ∃ entry rngs',
    d !! a1 = Some entry ∧ d !! a2 = Some entry ∧
    access_loop tbl terms rngs' = Ok (Some entry).
Proof.
  intros Hnd Hrun.
  apply array_loop_app in Hrun as (rngs' & pd' & Hrun). simpl in Hrun.
  destruct (access_loop tbl terms rngs') as [[entry|]|] eqn:Hacc;
    simpl in Hrun; try discriminate.
  exists entry, rngs'.
  rewrite fmap_app in Hnd. simpl in Hnd.
  apply NoDup_app in Hnd as (_ & _ & Hnd).
  apply NoDup_cons in Hnd as [Hn1 Hnd]. apply NoDup_cons in Hnd as [Hn2 _].
  apply not_elem_of_cons in Hn1 as [Hne Hn1].
  rewrite !(array_loop_frame _ _ _ _ _ _ Hrun) by done.
  rewrite lookup_insert_eq, lookup_insert_ne, lookup_insert_eq by done.
  done.
Qed.

End Composition.

(** ** Claims on the per-array composition *)

Section Distribution.

Implicit Types (self : IOAnalysisSubgraph) (r : Z).
Implicit Types (tbl entry : gmap string range).
Implicit Types (d : gmap string (gmap string range)).

Lemma get_data_decomposition_table self r tbl :
  r < prod (p_grid self) →
  iter_ranges self r = Ok tbl →
  get_data_decomposition self r
  = (array_loop tbl (input_arrays self) None ∅, []).
Proof.
  intros Hr Htbl. rewrite get_data_decomposition_busy by done.
  by rewrite Htbl.
Qed.

(** When every array has an access term and every symbol a range, the
    loop over the arrays returns. *)
Lemma array_loop_total tbl (arrays : phis_t) rngs pd :
  Forall (λ aa, aa.2 ≠ [] ∧ accesses_resolvable tbl aa.2) arrays →
  ∃ d, array_loop tbl arrays rngs pd = Ok d.
Proof.
  revert rngs pd. induction arrays as [|[arr accesses] arrays IH];
    intros rngs pd Hall; simpl.
  - by eexists.
  - apply Forall_cons in Hall as [[Hne Hres] Hall]. simpl in Hne, Hres.
    destruct (access_loop_cases tbl accesses rngs)
      as [(a & p & it & Hin & Hit & Hnone & _)
         |(_ & rngs' & -> & _ & Hsome & _)].
    + unfold accesses_resolvable in Hres.
      rewrite Forall_forall in Hres. specialize (Hres _ Hin). simpl in Hres.
      unfold resolvable in Hres. rewrite Forall_forall in Hres.
      destruct (Hres _ Hit) as [? Hsome]. congruence.
    + destruct (Hsome Hne) as [entry ->]. simpl. apply IH, Hall.
Qed.

(** Once [rngs] is bound, or when the first array has an access term, a
    symbol without a range anywhere among the accesses ends the loop over
    the arrays with [KeyError]. *)
Lemma array_loop_unresolved tbl (arrays : phis_t) rngs pd :
  (is_Some rngs ∨ ∃ arr ap terms rest, arrays = (arr, ap :: terms) :: rest) →
  (∃ arr accesses access pars it,
      (arr, accesses) ∈ arrays ∧ (access, pars) ∈ accesses ∧
      it ∈ split star access ∧ tbl !! it = None) →
  ∃ it, tbl !! it = None ∧ array_loop tbl arrays rngs pd = Raise (KeyError it).
Proof.
  revert rngs pd. induction arrays as [|[arr0 acc0] arrays IH];
    intros rngs pd Hbound (arr & accesses & access & pars & it & Harr & Hacc
                           & Hit & Hnone).
  { by apply elem_of_nil in Harr. }
  simpl.
  destruct (access_loop_cases tbl acc0 rngs)
    as [(a & p & it' & _ & _ & Hnone' & ->)
       |(Hres & rngs' & -> & Hnil & Hsome & _)].
  { exists it'. done. }
  simpl.
  assert (Hb : is_Some rngs').
  { destruct acc0 as [|ap terms]; [|by apply Hsome].
    rewrite Hnil by done. destruct Hbound as [?|(? & ? & ? & ? & ?)]; [done|].
    discriminate. }
  destruct Hb as [entry ->].
  apply elem_of_cons in Harr as [[= <- <-]|Harr].
  - exfalso. unfold accesses_resolvable in Hres.
    rewrite Forall_forall in Hres. specialize (Hres _ Hacc). simpl in Hres.
    unfold resolvable in Hres. rewrite Forall_forall in Hres.
    destruct (Hres _ Hit) as [? ?]. congruence.
  - apply IH; [by left|]. by exists arr, accesses, access, pars, it.
Qed.

(** Where the first array has an access term, a constituent symbol
    without a range makes the call fail with [KeyError]. *)
Lemma get_data_decomposition_KeyError self r tbl :
  r < prod (p_grid self) →
  iter_ranges self r = Ok tbl →
  (∃ arr ap terms rest, input_arrays self = (arr, ap :: terms) :: rest) →
  (∃ arr accesses access pars it,
      (arr, accesses) ∈ input_arrays self ∧ (access, pars) ∈ accesses ∧
      it ∈ split star access ∧ tbl !! it = None) →
  ∃ it, tbl !! it = None ∧
        get_data_decomposition self r = (Raise (KeyError it), []).
Proof.
  intros Hr Htbl Hfirst Hun.
  rewrite (get_data_decomposition_table _ _ _ Hr Htbl).
  destruct (array_loop_unresolved tbl (input_arrays self) None ∅)
    as (it & Hnone & ->); [by right|done|].
  by exists it.
Qed.

(** The entry of an array is the resolution of its last access term. *)
Lemma get_data_decomposition_last_access self r tbl d
    (before after : phis_t) (arr : string) (terms : accesses_t)
    (t : string) (pars : list string) :
  r < prod (p_grid self) →
  iter_ranges self r = Ok tbl →
  NoDup (input_arrays self).*1 →
  input_arrays self = before ++ (arr, terms ++ [(t, pars)]) :: after →
  get_data_decomposition self r = (Ok d, []) →
  ∃ entry, d !! arr = Some entry ∧ resolved tbl t entry.
Proof.
  intros Hr Htbl Hnd Heq Hrun.
  rewrite (get_data_decomposition_table _ _ _ Hr Htbl) in Hrun.
  injection Hrun as Hrun. rewrite Heq in Hnd, Hrun.
  by eapply array_loop_last_access.
Qed.

(** Concrete example B: the term [i*k] resolves to both of its symbols. *)
Example example_B_resolves :
  get_data_decomposition (example_B [("A", [("i*k", ["i"; "k"])])]) 0
  = (Ok {["A" := <["k" := (0, 8)]> {["i" := (0, 4)]}]}, []).
Proof. vm_compute. reflexivity. Qed.

(** C3, evaluated where it fails: an array accessed through the two terms
    [i] and [j], rank 0 of example A.  Both symbols have the range
    [(0,4)] in the table, yet the entry returned for the array holds [j]
    alone: [rngs] is rebound to an empty dict at every access term and
    stored after the loop over the terms. *)
Theorem entry_keeps_last_access_only :
  iter_ranges (example_A [("A", [("i", ["i"]); ("j", ["j"])])]) 0
  = Ok (<["j" := (0, 4)]> {["i" := (0, 4)]}) ∧
  get_data_decomposition (example_A [("A", [("i", ["i"]); ("j", ["j"])])]) 0
  = (Ok {["A" := {["j" := (0, 4)]}]}, []) ∧
  ({["j" := (0, 4)]} : gmap string range) !! "i" = None.
Proof. split_and!; vm_compute; reflexivity. Qed.

(** C7, evaluated where it fails: rank 0 of example A with an array
    without access terms ahead of an array whose term [z] has no range.
    The call fails, but with the unbound local [rngs], before the symbol
    is ever looked up. *)
Theorem unresolved_symbol_behind_empty_array :
  (∃ tbl, iter_ranges (example_A [("A", []); ("B", [("z", ["z"])])]) 0 = Ok tbl
          ∧ tbl !! "z" = None) ∧
  get_data_decomposition (example_A [("A", []); ("B", [("z", ["z"])])]) 0
  = (Raise (UnboundLocalError "rngs"), []).
Proof.
  split.
  - eexists. split; [vm_compute; reflexivity|]. vm_compute. reflexivity.
  - vm_compute. reflexivity.
Qed.

(** C10. For a rank that is not idle and whose range table was built:
    the call returns when every array has an access term and every
    symbol a range; a first array without access terms makes it fail on
    the unbound local [rngs]; and a later array without access terms is
    stored with the entry of the array before it, which is the resolution
    of that array's last access term. *)
Theorem empty_access_map_edge_case self r tbl :
  r < prod (p_grid self) →
  iter_ranges self r = Ok tbl →
  NoDup (input_arrays self).*1 →
  (Forall (λ aa, aa.2 ≠ [] ∧ accesses_resolvable tbl aa.2) (input_arrays self) →
     ∃ d, get_data_decomposition self r = (Ok d, [])) ∧
  (∀ arr rest, input_arrays self = (arr, []) :: rest →
     get_data_decomposition self r = (Raise (UnboundLocalError "rngs"), [])) ∧
  (∀ before a1 terms a2 after d,
     input_arrays self = before ++ (a1, terms) :: (a2, []) :: after →
     get_data_decomposition self r = (Ok d, []) →
     ∃ entry, d !! a1 = Some entry ∧ d !! a2 = Some entry ∧
              ∀ terms' t pars, terms = terms' ++ [(t, pars)] →
                               resolved tbl t entry).
Proof.
  intros Hr Htbl Hnd.
  rewrite (get_data_decomposition_table _ _ _ Hr Htbl). split_and!.
  - intros Hall.
    destruct (array_loop_total tbl (input_arrays self) None ∅ Hall) as [d ->].
    by exists d.
  - intros arr rest ->. done.
  - intros before a1 terms a2 after d Heq [= Hrun]. rewrite Heq in Hnd, Hrun.
    destruct (array_loop_empty_inherits _ _ _ _ _ _ _ _ _ Hnd Hrun)
      as (entry & rngs' & H1 & H2 & Hacc).
    exists entry. split_and!; [done..|].
    intros terms' t pars ->.
    destruct (access_loop_cases tbl (terms' ++ [(t, pars)]) rngs')
      as [(? & ? & ? & _ & _ & _ & Hraise)|(_ & rngs'' & Hacc' & _ & _ & Hlast)].
    { congruence. }
    destruct (Hlast terms' t pars eq_refl) as (entry' & -> & Hres).
    rewrite Hacc in Hacc'. by injection Hacc' as ->.
Qed.

Lemma empty_access_map_edge_case_witness :
  ∃ entry,
    ({["A" := {["j" := (0, 4)]}; "B" := {["j" := (0, 4)]}]}
      : gmap string (gmap string range)) !! "B" = Some entry ∧
    ∀ terms' t pars,
      [("i", ["i"]); ("j", ["j"])] = terms' ++ [(t, pars)] →
      resolved (<["j" := (0, 4)]> {["i" := (0, 4)]}) t entry.
Proof.
  pose (self := example_A [("A", [("i", ["i"]); ("j", ["j"])]); ("B", [])]).
  assert (Hr : 0 < prod (p_grid self)) by (vm_compute; reflexivity).
  assert (Htbl : iter_ranges self 0 = Ok (<["j" := (0, 4)]> {["i" := (0, 4)]}))
    by (vm_compute; reflexivity).
  assert (Hnd : NoDup (input_arrays self).*1).
  { simpl. apply NoDup_cons. split; [|apply NoDup_singleton].
    intros Hin. apply list_elem_of_singleton in Hin. discriminate. }
  destruct (empty_access_map_edge_case self 0 _ Hr Htbl Hnd) as (_ & _ & Hlater).
  destruct (Hlater [] "A" [("i", ["i"]); ("j", ["j"])] "B" []
              {["A" := {["j" := (0, 4)]}; "B" := {["j" := (0, 4)]}]})
    as (entry & _ & HB & Hres).
  - reflexivity.
  - vm_compute. reflexivity.
  - exists entry. split; [exact HB | exact Hres].
Defined.

End Distribution.

(** ** Reasoning about logged computations *)

Section Logged.

Context {A B : Type}.

Lemma io_bind_Ok_inv (m : io A) (k : A → io B) log b log' :
  (m ≫= k) log = (Ok b, log') →
  ∃ a log1, m log = (Ok a, log1) ∧ k a log1 = (Ok b, log').
Proof.
  unfold mbind, io_bind. destruct (m log) as [[a|e] log1]; [|done].
  intros. by exists a, log1.
Qed.

Lemma io_bind_Ok (m : io A) (k : A → io B) log a log1 :
  m log = (Ok a, log1) → (m ≫= k) log = k a log1.
Proof. unfold mbind, io_bind. by intros ->. Qed.

Lemma io_bind_Raise (m : io A) (k : A → io B) log e log1 :
  m log = (Raise e, log1) → (m ≫= k) log = (Raise e, log1).
Proof. unfold mbind, io_bind. by intros ->. Qed.

Lemma emits_ret (P : event → Prop) (a : A) : emits P (mret a : io A).
Proof. intros log. exists []. by rewrite app_nil_r. Qed.

Lemma emits_raise (P : event → Prop) (e : exn) : emits P (raise e : io A).
Proof. intros log. exists []. by rewrite app_nil_r. Qed.

Lemma emits_call (P : event → Prop) (ev : event) (outcome : result A) :
  P ev → emits P (call ev outcome).
Proof. intros Hev log. exists [ev]. split; [done|]. by constructor. Qed.

Lemma emits_bind (P : event → Prop) (m : io A) (k : A → io B) :
  emits P m → (∀ a, emits P (k a)) → emits P (m ≫= k).
Proof.
  intros Hm Hk log. destruct (Hm log) as (evs1 & Hlog1 & HP1).
  unfold mbind, io_bind. destruct (m log) as [[a|e] log1]; simpl in Hlog1.
  - destruct (Hk a log1) as (evs2 & Hlog2 & HP2).
    exists (evs1 ++ evs2). rewrite Hlog2, Hlog1, app_assoc.
    split; [done|]. by apply Forall_app.
  - exists evs1. done.
Qed.

End Logged.

Ltac emits_step :=
  first
    [ apply emits_ret
    | apply emits_raise
    | apply emits_call; first [discriminate | intros ?; discriminate]
    | apply emits_bind; [|intros ?]
    | match goal with
      | |- emits _ (match ?x with _ => _ end) => destruct x
      end ].

Ltac solve_emits := repeat emits_step.


(** ** Facts on the orchestrators *)

Section OrchestratorFacts.

Context {SDFG SDG DecompositionParams : Type}.
Variable W : collaborators SDFG SDG DecompositionParams.

Implicit Types (params : SOAPParameters DecompositionParams).
Implicit Types (live : list Subgraph.t) (log : list event).

Lemma call_Ok_inv {A} (ev : event) (outcome : result A) log (a : A) log' :
  call ev outcome log = (Ok a, log') → outcome = Ok a ∧ log' = log ++ [ev].
Proof. unfold call. by intros [= -> <-]. Qed.

Lemma open_session_emits (P : event → Prop) :
  P ParseParams → (∀ s, P (NewSolver s)) → (∀ b, P (StartSolver b)) →
  (∀ t, P (SetTimeout t)) → emits P (open_session W).
Proof.
  intros ????. unfold open_session.
  repeat first [apply emits_ret | apply emits_call; [done]
               | apply emits_bind; [|intros ?]].
Qed.

(** The snapshots of the graph-based loop, one per live subgraph. *)
Lemma snapshot_loop_spec (gs : bool) params live acc log res log' :
  snapshot_loop W gs params live acc log = (Ok res, log') →
  ∃ new, res = acc ++ new ∧ Forall2 (graph_snapshot W gs params) live new.
Proof.
  revert acc log. induction live as [|subgr live IH]; intros acc log; simpl.
  - intros [= <- <-]. exists []. by rewrite app_nil_r.
  - intros Hrun.
    apply io_bind_Ok_inv in Hrun as (s & log1 & Hstep & Hrun).
    apply IH in Hrun as (new & -> & Hnew).
    exists (s :: new). split; [by rewrite <- app_assoc|].
    constructor; [|done]. unfold graph_snapshot.
    destruct gs.
    + apply io_bind_Ok_inv in Hstep as (subgr' & log2 & Hinit & Hret).
      apply call_Ok_inv in Hinit as [Hinit _].
      injection Hret as <- _. by exists subgr'.
    + by injection Hstep as <- _.
Qed.

(** The snapshots of the einsum loop, one per live subgraph. *)
Lemma snapshot_loop_einsum_spec (gs : bool) params live acc log res log' :
  snapshot_loop_einsum W gs params live acc log = (Ok res, log') →
  ∃ new, res = acc ++ new ∧ Forall2 (einsum_snapshot W gs params) live new.
Proof.
  revert acc log. induction live as [|subgr live IH]; intros acc log; simpl.
  - intros [= <- <-]. exists []. by rewrite app_nil_r.
  - intros Hrun.
    apply io_bind_Ok_inv in Hrun as (subgr' & log1 & Hstep & Hrun).
    apply IH in Hrun as (new & -> & Hnew).
    eexists (_ :: new). split; [by rewrite <- app_assoc|].
    constructor; [|done]. exists subgr'. split; [|done].
    destruct gs.
    + by apply call_Ok_inv in Hstep as [Hinit _].
    + by injection Hstep as <- _.
Qed.

Lemma snapshot_loop_no_init params live acc :
  emits not_init_decomposition (snapshot_loop W false params live acc).
Proof.
  revert acc. induction live as [|subgr live IH]; intros acc; simpl.
  - apply emits_ret.
  - apply emits_bind; [apply emits_ret|]. intros s. apply IH.
Qed.

Lemma snapshot_loop_einsum_emits (P : event → Prop) (gs : bool) params live acc :
  (∀ n, P (InitDecomposition n)) →
  emits P (snapshot_loop_einsum W gs params live acc).
Proof.
  intros HP. revert acc. induction live as [|subgr live IH]; intros acc; simpl.
  - apply emits_ret.
  - apply emits_bind; [|intros s; apply IH].
    destruct gs; [|apply emits_ret]. by apply emits_call.
Qed.

(** With the flag off the graph-based body never runs
    [init_decomposition], whatever [params] holds on entry. *)
Lemma body_no_init (params0 : local (option (SOAPParameters DecompositionParams)))
    (sdfg : SDFG) :
  emits not_init_decomposition (perform_soap_analysis_body W params0 sdfg false).
Proof.
  unfold perform_soap_analysis_body, load, call_end_solver.
  destruct params0 as [|[params|]];
    repeat first [ apply snapshot_loop_no_init
                 | apply open_session_emits; intros; discriminate
                 | emits_step ].
Qed.

(** The einsum entry point never calls [end_solver]. *)
Lemma einsum_never_ends_solver (einsum_string : string)
    (params : option (SOAPParameters DecompositionParams))
    (generate_schedule : option bool) :
  emits not_end_solver
    (perform_soap_analysis_einsum W einsum_string params generate_schedule).
Proof.
  unfold perform_soap_analysis_einsum.
  repeat first [ apply snapshot_loop_einsum_emits; intros; discriminate
               | apply open_session_emits; intros; discriminate
               | emits_step ].
Qed.

(** The einsum entry point never asks for the number of weakly connected
    components. *)
Lemma einsum_never_checks_connectivity (einsum_string : string)
    (params : option (SOAPParameters DecompositionParams))
    (generate_schedule : option bool) :
  emits not_connectivity_check
    (perform_soap_analysis_einsum W einsum_string params generate_schedule).
Proof.
  unfold perform_soap_analysis_einsum.
  repeat first [ apply snapshot_loop_einsum_emits; intros; discriminate
               | apply open_session_emits; intros; discriminate
               | emits_step ].
Qed.

End OrchestratorFacts.

(** ** Claims on the orchestrators *)

Section OrchestratorClaims.

Context {SDFG SDG DecompositionParams : Type}.
Variable W : collaborators SDFG SDG DecompositionParams.

Implicit Types (params : SOAPParameters DecompositionParams).
Implicit Types (live : list Subgraph.t) (log : list event).

(** What lines 85-89 do once reached: parse the configuration, build the
    solver from it, start it and set its timeout to 300. *)
Lemma open_session_log params log :
  parse_params W = Ok params →
  (∀ s b, start_solver W s b = Ok ()) →
  (∀ s t, set_timeout W s t = Ok ()) →
  let s := {| cached_only := only_cached params;
              caching_solutions := caching_solver_solutions params |} in
  open_session W log
  = (Ok (set_solver_attr params s),
     log ++ [ParseParams; NewSolver s; StartSolver (remoteMatlab params);
             SetTimeout 300]).
Proof.
  intros Hp Hs Ht s. unfold open_session, mbind, io_bind, call. rewrite Hp.
  rewrite Hs, Ht. simpl. by rewrite <- !app_assoc.
Qed.

(** A returned analysis of the graph-based body stems from a connected
    graph and holds one snapshot per live subgraph. *)
Lemma body_Ok_inv (params0 : local (option (SOAPParameters DecompositionParams)))
    (sdfg : SDFG) (gs : bool) log (a : IOAnalysis SDG) log' :
  perform_soap_analysis_body W params0 sdfg gs log = (Ok a, log') →
  ∃ params live,
    number_weakly_connected_components W (sdg a) = Ok 1%nat ∧
    calculate_IO_of_SDG W (sdg a) params = Ok (an_Q a, live) ∧
    Forall2 (graph_snapshot W gs params) live (subgraphs a).
Proof.
  unfold perform_soap_analysis_body. intros Hrun.
  apply io_bind_Ok_inv in Hrun as (p & log1 & _ & Hrun).
  apply io_bind_Ok_inv in Hrun as (params & log2 & _ & Hrun).
  apply io_bind_Ok_inv in Hrun as (g & log3 & _ & Hrun).
  apply io_bind_Ok_inv in Hrun as (n & log4 & Hn & Hrun).
  apply call_Ok_inv in Hn as [Hn _].
  apply io_bind_Ok_inv in Hrun as ([] & log5 & Hassert & Hrun).
  destruct (decide (n = 1%nat)) as [->|]; [|discriminate].
  apply io_bind_Ok_inv in Hrun as ([Q live] & log6 & Hcalc & Hrun).
  apply call_Ok_inv in Hcalc as [Hcalc _].
  apply io_bind_Ok_inv in Hrun as ([] & log7 & _ & Hrun).
  apply io_bind_Ok_inv in Hrun as (res & log8 & Hloop & Hrun).
  injection Hrun as <- _. simpl.
  apply snapshot_loop_spec in Hloop as (new & -> & Hnew).
  by exists params, live.
Qed.

(** A returned analysis of the einsum entry point holds one snapshot per
    live subgraph. *)
Lemma einsum_Ok_inv (einsum_string : string)
    (p : option (SOAPParameters DecompositionParams)) (gs : option bool)
    log (a : IOAnalysis SDG) log' :
  perform_soap_analysis_einsum W einsum_string p gs log = (Ok a, log') →
  ∃ params live,
    calculate_IO_of_SDG W (sdg a) params = Ok (an_Q a, live) ∧
    Forall2 (einsum_snapshot W (default true gs) params) live (subgraphs a).
Proof.
  unfold perform_soap_analysis_einsum. intros Hrun.
  apply io_bind_Ok_inv in Hrun as (params & log1 & _ & Hrun).
  apply io_bind_Ok_inv in Hrun as (sdfg & log2 & _ & Hrun).
  apply io_bind_Ok_inv in Hrun as (g & log3 & _ & Hrun).
  apply io_bind_Ok_inv in Hrun as ([Q live] & log4 & Hcalc & Hrun).
  apply call_Ok_inv in Hcalc as [Hcalc _].
  apply io_bind_Ok_inv in Hrun as (res & log5 & Hloop & Hrun).
  injection Hrun as <- _. simpl.
  apply snapshot_loop_einsum_spec in Hloop as (new & -> & Hnew).
  by exists params, live.
Qed.

(** C8, evaluated on every call: the graph-based entry point raises
    [UnboundLocalError] at its first statement and logs no call, so no
    solver is constructed, started or given a timeout. *)
Theorem graph_entry_point_unbound_params (sdfg : SDFG)
    (generate_schedule : option bool) log :
  perform_soap_analysis W sdfg generate_schedule log
  = (Raise (UnboundLocalError "params"), log).
Proof. reflexivity. Qed.

(** In the body of the graph-based entry point, whatever [params] holds
    on entry: with the flag off [init_decomposition] is never run and
    the decomposition fields of every returned snapshot are empty; with
    the flag on every returned snapshot has the fields of its live subgraph
    after [init_decomposition].  The flag defaults to off there and to on
    in the einsum entry point, whose returned snapshots always have the
    fields of their live subgraph, after [init_decomposition] when the flag
    is on and as the engine left it otherwise. *)
Theorem decomposition_fields_on_request :
  (∀ slot sdfg,
      emits not_init_decomposition
        (perform_soap_analysis_body W slot sdfg false)) ∧
  (∀ slot sdfg log a log',
      perform_soap_analysis_body W slot sdfg false log = (Ok a, log') →
      Forall decomposition_empty (subgraphs a)) ∧
  (∀ slot sdfg log a log',
      perform_soap_analysis_body W slot sdfg true log = (Ok a, log') →
      ∃ params live,
        calculate_IO_of_SDG W (sdg a) params = Ok (an_Q a, live) ∧
        Forall2 (λ subgr s,
                   ∃ subgr',
                     init_decomposition W (decomposition_params params) params
                       subgr = Ok subgr' ∧
                     decomposition_of subgr' s)
                live (subgraphs a)) ∧
  (∀ sdfg gs,
      perform_soap_analysis W sdfg gs
      = perform_soap_analysis_body W Unbound sdfg (default false gs)) ∧
  (∀ einsum_string p,
      perform_soap_analysis_einsum W einsum_string p None
      = perform_soap_analysis_einsum W einsum_string p (Some true)) ∧
  (∀ einsum_string p gs log a log',
      perform_soap_analysis_einsum W einsum_string p gs log = (Ok a, log') →
      ∃ params live,
        calculate_IO_of_SDG W (sdg a) params = Ok (an_Q a, live) ∧
        Forall2 (λ subgr s,
                   ∃ subgr',
                     (if default true gs then
                        init_decomposition W (decomposition_params params)
                          params subgr = Ok subgr'
                      else subgr' = subgr) ∧
                     decomposition_of subgr' s)
                live (subgraphs a)).
Proof.
  split_and!.
  - apply body_no_init.
  - intros slot sdfg log a log' Hrun.
    apply body_Ok_inv in Hrun as (params & live & _ & _ & Hsnap).
    induction Hsnap as [|subgr s live snaps Hs _ IH]; constructor; [|done].
    unfold graph_snapshot in Hs. by subst s.
  - intros slot sdfg log a log' Hrun.
    apply body_Ok_inv in Hrun as (params & live & _ & Hcalc & Hsnap).
    exists params, live. split; [done|].
    eapply Forall2_impl; [exact Hsnap|].
    intros subgr s (subgr' & Hinit & ->). by exists subgr'.
  - done.
  - done.
  - intros einsum_string p gs log a log' Hrun.
    apply einsum_Ok_inv in Hrun as (params & live & Hcalc & Hsnap).
    exists params, live. split; [done|].
    eapply Forall2_impl; [exact Hsnap|].
    intros subgr s (subgr' & Hinit & ->). by exists subgr'.
Qed.

End OrchestratorClaims.

(** The body of the graph-based entry point, had [params] been bound to a
    false value, on a graph of two components: the assertion of line 93
    fires after the session was opened, and nothing closes the session. *)
Example body_rejects_disconnected :
  perform_soap_analysis_body Demo.world (Bound None) 2%nat false []
  = (Raise AssertionError,
     [ParseParams; NewSolver (mkSolver false true); StartSolver false;
      SetTimeout 300; NewSDG; WeaklyConnectedComponents]).
Proof. reflexivity. Qed.

(** C4, evaluated where it fails: an einsum call whose kernel graph has two
    weakly connected components.  No connectivity check is made, the
    engine runs and an analysis is returned; and the graph-based entry
    point, on a graph of two components, fails on the unbound [params]
    before any graph is built, not on the connectivity assertion. *)
Theorem disconnected_graph_not_rejected :
  ∃ a,
    perform_soap_analysis_einsum Demo.world "ij,jk->ik" None None []
    = (Ok a,
       [ParseParams; NewSolver (mkSolver false true); StartSolver false;
        SetTimeout 300; SdfgGen "ij,jk->ik"; NewSDG; CalculateIO;
        InitDecomposition 7]) ∧
    number_weakly_connected_components Demo.world (sdg a) = Ok 2%nat ∧
    perform_soap_analysis Demo.world 2%nat None []
    = (Raise (UnboundLocalError "params"), []).
Proof. eexists. split_and!; reflexivity. Qed.

(** C5, evaluated where it fails: an einsum call without parameters opens
    its own session and returns the analysis with the session still open;
    [end_solver] is never called. *)
Theorem einsum_session_left_open :
  ∃ a log,
    perform_soap_analysis_einsum Demo.world "ij,jk->ik" None None []
    = (Ok a, log) ∧
    log = [ParseParams; NewSolver (mkSolver false true); StartSolver false;
           SetTimeout 300; SdfgGen "ij,jk->ik"; NewSDG; CalculateIO;
           InitDecomposition 7] ∧
    (EndSolver ∉ log) ∧ session_open log = true.
Proof.
  eexists _, _. split; [reflexivity|]. split_and!.
  - reflexivity.
  - intros Hin. repeat (apply elem_of_cons in Hin as [Heq|Hin]; [discriminate|]).
    by apply elem_of_nil in Hin.
  - reflexivity.
Qed.

Lemma decomposition_fields_on_request_witness :
  perform_soap_analysis_body Demo.world (Bound None) 1%nat false []
  = (Ok Demo.analysis_off,
     [ParseParams; NewSolver (mkSolver false true); StartSolver false;
      SetTimeout 300; NewSDG; WeaklyConnectedComponents; CalculateIO;
      EndSolver]) ∧
  Forall decomposition_empty (subgraphs Demo.analysis_off).
Proof.
  assert (Hrun : perform_soap_analysis_body Demo.world (Bound None) 1%nat false []
                 = (Ok Demo.analysis_off,
                    [ParseParams; NewSolver (mkSolver false true);
                     StartSolver false; SetTimeout 300; NewSDG;
                     WeaklyConnectedComponents; CalculateIO; EndSolver]))
    by reflexivity.
  split; [exact Hrun|].
  destruct (decomposition_fields_on_request Demo.world) as (_ & Hoff & _).
  exact (Hoff _ _ _ _ _ Hrun).
Defined.

(** ** Further properties of the rank decomposition *)

Section Ranking.

Implicit Types (self : IOAnalysisSubgraph) (grid coords : list Z) (r : Z).

Lemma rank_of_unrank_spec grid r :
  prod grid ≠ 0 → grid ≠ [] → rank_of grid (unrank_spec grid r) = r.
Proof.
  revert r. induction grid as [|g rest IH]; intros r Hne Hnil; [done|].
  apply prod_cons_nonzero in Hne as Hrest. simpl.
  destruct rest as [|g' rest'].
  - rewrite prod_nil. simpl. rewrite Z.div_1_r. lia.
  - rewrite IH by done. lia.
Qed.

(** The coordinates of a rank below the rank count determine it: ranking
    them row-major gives the rank back, so two such ranks with the same
    coordinates are the same rank. *)
Theorem rank_of_p_pos self r :
  0 ≤ r < prod (p_grid self) →
  (∃ coords, p_pos self r = Ok coords ∧ rank_of (p_grid self) coords = r) ∧
  (∀ r', 0 ≤ r' < prod (p_grid self) → p_pos self r' = p_pos self r → r' = r).
Proof.
  assert (Hback : ∀ q, 0 ≤ q < prod (p_grid self) →
            rank_of (p_grid self) (unrank_spec (p_grid self) q) = q).
  { intros q Hq. destruct (p_grid self) as [|g rest] eqn:Hgrid.
    - rewrite prod_nil in Hq. simpl. lia.
    - apply rank_of_unrank_spec; [lia|done]. }
  intros Hr. split.
  - exists (unrank_spec (p_grid self) r). split; [by apply p_pos_unrank|].
    by apply Hback.
  - intros r' Hr' Heq.
    rewrite !p_pos_unrank in Heq by done. injection Heq as Heq.
    rewrite <- (Hback r' Hr'), <- (Hback r Hr). by rewrite Heq.
Qed.

Lemma rank_of_p_pos_witness :
  (0 ≤ 3 < prod (p_grid (example_A []))) ∧
  (∃ coords, p_pos (example_A []) 3 = Ok coords
             ∧ rank_of (p_grid (example_A [])) coords = 3).
Proof.
  assert (Hr : 0 ≤ 3 < prod (p_grid (example_A []))) by (vm_compute; done).
  split; [exact Hr|].
  exact (proj1 (rank_of_p_pos (example_A []) 3 Hr)).
Defined.

Lemma rank_of_bounds grid coords :
  within_grid grid coords → 0 ≤ rank_of grid coords < prod grid.
Proof.
  induction 1 as [|g c rest cs Hc _ IH]; simpl.
  - rewrite prod_nil. lia.
  - rewrite prod_cons. nia.
Qed.

(** Coordinates inside the grid are the coordinates of the rank they rank
    to, and that rank is below the rank count: ranking and the loop of
    [get_data_decomposition] are inverse to each other. *)
Theorem p_pos_rank_of self coords :
  within_grid (p_grid self) coords →
  0 ≤ rank_of (p_grid self) coords < prod (p_grid self) ∧
  p_pos self (rank_of (p_grid self) coords) = Ok coords.
Proof.
  intros Hin. split; [by apply rank_of_bounds|].
  unfold p_pos. induction Hin as [|g c rest cs Hc Hin IH]; [done|].
  pose proof (rank_of_bounds _ _ Hin) as HR.
  simpl. destruct (div_exact (c * prod rest + rank_of rest cs) (prod rest))
    as [-> _]; [lia|].
  simpl.
  assert (Hq : (c * prod rest + rank_of rest cs) / prod rest = c).
  { rewrite Z.div_add_l by lia. rewrite Z.div_small by lia. lia. }
  rewrite Hq.
  replace (c * prod rest + rank_of rest cs - c * prod rest)
    with (rank_of rest cs) by lia.
  by rewrite IH.
Qed.

Lemma p_pos_rank_of_witness :
  within_grid (p_grid (example_A [])) [1; 0] ∧
  p_pos (example_A []) (rank_of (p_grid (example_A [])) [1; 0]) = Ok [1; 0].
Proof.
  assert (Hin : within_grid (p_grid (example_A [])) [1; 0]).
  { repeat constructor; simpl; lia. }
  split; [exact Hin|].
  exact (proj2 (p_pos_rank_of (example_A []) [1; 0] Hin)).
Defined.

(** Clamping: in a valid decomposition the range of a rank in a dimension
    starts at a non-negative multiple of the local extent, ends no later
    than the global extent and is never longer than the local extent; it
    has the full local extent when the block fits, and is empty (its end
    not after its start) when the block starts at or beyond the global
    extent. *)
Theorem range_clamped self N r i g :
  valid_decomposition self N →
  0 ≤ r < prod (p_grid self) →
  dimensions_ordered self !! i = Some g →
  ∃ c l lo hi,
    loc_domain_dims self !! i = Some l ∧
    dim_coord self r i = Some c ∧
    dim_range self r i = Some (lo, hi) ∧
    lo = c * l ∧ 0 ≤ lo ∧ hi ≤ g ∧ hi - lo ≤ l ∧
    ((c + 1) * l ≤ g → hi - lo = l) ∧
    (g ≤ c * l → hi ≤ lo).
Proof.
  intros Hvalid Hr Hg.
  destruct (dim_range_spec _ _ _ _ _ Hvalid Hr Hg)
    as (c & l & p & Hloc & _ & Hl & _ & Hc & Hdc & Hdr).
  exists c, l, (c * l), (Z.min ((c + 1) * l) g).
  split_and!; try done; nia.
Qed.

Lemma range_clamped_witness :
  ∃ c l lo hi,
    loc_domain_dims example_uneven !! 0%nat = Some l ∧
    dim_coord example_uneven 2 0 = Some c ∧
    dim_range example_uneven 2 0 = Some (lo, hi) ∧
    lo = c * l ∧ 0 ≤ lo ∧ hi ≤ 10 ∧ hi - lo ≤ l ∧
    ((c + 1) * l ≤ 10 → hi - lo = l) ∧
    (10 ≤ c * l → hi ≤ lo).
Proof.
  apply (range_clamped example_uneven 1 2 0 10).
  - exact example_uneven_valid.
  - vm_compute. done.
  - reflexivity.
Defined.

(** A negative rank is not taken for idle on a positive grid: the loop
    runs, and the coordinate of the first dimension is negative. *)
Theorem negative_rank_not_idle self g rest r :
  p_grid self = g :: rest →
  Forall (λ p, 0 < p) (p_grid self) →
  r < 0 →
  (get_data_decomposition self r).2 = [] ∧
  ∃ c, dim_coord self r 0 = Some c ∧ c = r / prod rest ∧ c < 0.
Proof.
  intros Hgrid Hpos Hr.
  pose proof (prod_pos _ Hpos) as Hprod.
  split.
  - rewrite get_data_decomposition_busy by lia. done.
  - unfold dim_coord, p_pos. rewrite p_pos_loop_unrank by lia.
    rewrite Hgrid in Hpos |- *. apply Forall_cons in Hpos as [_ Hrest].
    pose proof (prod_pos _ Hrest). simpl.
    eexists. split_and!; [done..|].
    apply Z.div_lt_upper_bound; lia.
Qed.

Lemma negative_rank_not_idle_witness :
  ∃ c, dim_coord (example_A []) (-1) 0 = Some c ∧ c = -1 / prod [2] ∧ c < 0.
Proof.
  apply (negative_rank_not_idle (example_A []) 2 [2] (-1)).
  - reflexivity.
  - repeat constructor.
  - lia.
Defined.

End Ranking.

(** ** Further properties of the range table *)

Section Table.

Implicit Types (self : IOAnalysisSubgraph) (r : Z) (N i : nat).

Lemma dict_of_items_is_Some {V} (items : list (string * V)) (k : string) :
  is_Some (dict_of_items items !! k) ↔ k ∈ items.*1.
Proof.
  induction items as [|[k' v'] items IH] using rev_ind.
  - split; [by intros [? ?]|by intros ?%elem_of_nil].
  - rewrite fmap_app, dict_of_items_snoc, elem_of_app. simpl.
    rewrite list_elem_of_singleton.
    destruct (decide (k' = k)) as [->|Hne].
    + rewrite lookup_insert_eq. split; [by right|by eexists].
    + rewrite lookup_insert_ne by done. rewrite IH.
      split; [by left|]. by intros [?|?].
Qed.

Lemma dict_of_items_last {V} (before after : list (string * V))
    (k : string) (v : V) :
  k ∉ after.*1 → dict_of_items (before ++ (k, v) :: after) !! k = Some v.
Proof.
  induction after as [|[k' v'] after IH] using rev_ind; intros Hk.
  - by rewrite dict_of_items_snoc, lookup_insert_eq.
  - rewrite fmap_app, not_elem_of_app in Hk. destruct Hk as [Hk Hne].
    simpl in Hne. rewrite list_elem_of_singleton in Hne.
    rewrite app_comm_cons, app_assoc, dict_of_items_snoc.
    rewrite lookup_insert_ne by done. by apply IH.
Qed.

(** The names of the items are the variables. *)
Lemma iter_ranges_list_names self N r items :
  length (variables self) = N →
  length (p_grid self) = N →
  length (loc_domain_dims self) = N →
  length (dimensions_ordered self) = N →
  0 ≤ r < prod (p_grid self) →
  iter_ranges_list self r = Ok items →
  items.*1 = variables self.
Proof.
  intros Hv Hp Hl Hd Hr Hit.
  destruct (iter_ranges_list_spec self N r Hv Hp Hl Hd Hr)
    as (items' & Hit' & Hlen & Hk).
  rewrite Hit in Hit'. injection Hit' as <-.
  apply list_eq. intros j. rewrite list_lookup_fmap.
  destruct (variables self !! j) as [var|] eqn:Hvar.
  - pose proof (lookup_lt_Some _ _ _ Hvar) as Hj.
    destruct (lookup_lt_is_Some_2 (loc_domain_dims self) j) as [l Hloc]; [lia|].
    destruct (lookup_lt_is_Some_2 (dimensions_ordered self) j) as [g Hg]; [lia|].
    destruct (Hk j var l g Hvar Hloc Hg) as (c & _ & ->). done.
  - apply lookup_ge_None in Hvar.
    rewrite (lookup_ge_None_2 items j) by lia. done.
Qed.

(** The range table binds exactly the variable names, and binds a name to
    the range of the last dimension that carries it; with distinct names
    that is the range of the variable's own dimension. *)
Theorem range_table_lookup self N r :
  length (variables self) = N →
  length (p_grid self) = N →
  length (loc_domain_dims self) = N →
  length (dimensions_ordered self) = N →
  0 ≤ r < prod (p_grid self) →
  ∃ tbl,
    iter_ranges self r = Ok tbl ∧
    (∀ k, is_Some (tbl !! k) ↔ k ∈ variables self) ∧
    (∀ i var, variables self !! i = Some var →
              var ∉ drop (S i) (variables self) →
              tbl !! var = dim_range self r i) ∧
    (NoDup (variables self) →
     ∀ i var, variables self !! i = Some var → tbl !! var = dim_range self r i).
Proof.
  intros Hv Hp Hl Hd Hr.
  destruct (iter_ranges_list_spec self N r Hv Hp Hl Hd Hr)
    as (items & Hit & Hlen & Hk).
  pose proof (iter_ranges_list_names self N r items Hv Hp Hl Hd Hr Hit) as Hnames.
  assert (Hlast : ∀ i var, variables self !! i = Some var →
                    var ∉ drop (S i) (variables self) →
                    dict_of_items items !! var = dim_range self r i).
  { intros i var Hvar Hnin.
    pose proof (lookup_lt_Some _ _ _ Hvar) as Hi.
    destruct (lookup_lt_is_Some_2 (loc_domain_dims self) i) as [l Hloc]; [lia|].
    destruct (lookup_lt_is_Some_2 (dimensions_ordered self) i) as [g Hg]; [lia|].
    destruct (Hk i var l g Hvar Hloc Hg) as (c & _ & Hitem).
    unfold dim_range. rewrite Hit, Hitem. simpl.
    rewrite <- (take_drop_middle _ _ _ Hitem).
    apply dict_of_items_last. by rewrite fmap_drop, Hnames. }
  exists (dict_of_items items). split_and!.
  - unfold iter_ranges. by rewrite Hit.
  - intros k. by rewrite dict_of_items_is_Some, Hnames.
  - exact Hlast.
  - intros Hnd i var Hvar. apply Hlast; [done|].
    intros Hin. apply list_elem_of_lookup in Hin as [j Hj].
    rewrite lookup_drop in Hj.
    pose proof (NoDup_lookup _ _ _ _ Hnd Hvar Hj). lia.
Qed.

Lemma range_table_lookup_witness :
  ∃ tbl,
    iter_ranges (example_A []) 2 = Ok tbl ∧
    (∀ k, is_Some (tbl !! k) ↔ k ∈ variables (example_A [])).
Proof.
  destruct (range_table_lookup (example_A []) 2 2) as (tbl & Htbl & Hdom & _);
    try reflexivity.
  - vm_compute. done.
  - exists tbl. split; [exact Htbl | exact Hdom].
Defined.

Lemma iter_ranges_items_short (pos loc : list Z) (i : nat)
    (vds : list (string * Z)) :
  (i ≤ length pos)%nat → (i ≤ length loc)%nat →
  (length pos < i + length vds)%nat ∨ (length loc < i + length vds)%nat →
  iter_ranges_items pos loc i vds = Raise IndexError.
Proof.
  revert i. induction vds as [|[var g] vds IH]; intros i Hp Hl Hshort;
    simpl in *.
  - lia.
  - unfold index.
    destruct (pos !! i) as [c|] eqn:Hc; [|reflexivity].
    destruct (loc !! i) as [l|] eqn:Hlo; [|reflexivity].
    simpl.
    apply lookup_lt_Some in Hc, Hlo. rewrite IH by lia. done.
Qed.

(** When the processor grid or the local extents are shorter than the
    dimensions zipped from the variables and the global extents, a rank
    below the rank count fails with [IndexError]. *)
Theorem short_grid_IndexError self r :
  0 ≤ r < prod (p_grid self) →
  let n := Nat.min (length (variables self)) (length (dimensions_ordered self)) in
  (length (p_grid self) < n)%nat ∨ (length (loc_domain_dims self) < n)%nat →
  get_data_decomposition self r = (Raise IndexError, []).
Proof.
  intros Hr n Hshort.
  rewrite get_data_decomposition_busy by lia.
  unfold iter_ranges, iter_ranges_list. rewrite p_pos_unrank by done. simpl.
  rewrite iter_ranges_items_short; [done|lia|lia|].
  rewrite zip_py_length, unrank_spec_length. simpl. lia.
Qed.

Lemma short_grid_IndexError_witness :
  get_data_decomposition example_short_grid 1 = (Raise IndexError, []).
Proof.
  apply (short_grid_IndexError example_short_grid 1).
  - vm_compute. done.
  - left. vm_compute. lia.
Defined.

End Table.

(** ** Further properties of the per-array composition *)

Section Entries.

Implicit Types (self : IOAnalysisSubgraph) (r : Z).
Implicit Types (tbl entry : gmap string range) (arrays : phis_t).
Implicit Types (rngs : option (gmap string range)).
Implicit Types (pd d : gmap string (gmap string range)).

Lemma iter_ranges_items_raise (pos loc : list Z) (i : nat)
    (vds : list (string * Z)) (e : exn) :
  iter_ranges_items pos loc i vds = Raise e → e = IndexError.
Proof.
  revert i. induction vds as [|[var g] vds IH]; intros i; simpl; [done|].
  unfold index.
  destruct (pos !! i); [|by intros [= <-]].
  destruct (loc !! i); [|by intros [= <-]]. simpl.
  destruct (iter_ranges_items pos loc (S i) vds) eqn:Hrest; simpl; [done|].
  intros [= <-]. by eapply IH.
Qed.

(** How the loop over the arrays can fail: with [KeyError] at a symbol of
    one of the access terms, or on the unbound [rngs] when it starts
    unbound and the first array has no access term. *)
Lemma array_loop_raise tbl arrays rngs pd (e : exn) :
  array_loop tbl arrays rngs pd = Raise e →
  (∃ k arr accesses access pars,
      e = KeyError k ∧ tbl !! k = None ∧
      (arr, accesses) ∈ arrays ∧ (access, pars) ∈ accesses ∧
      k ∈ split star access)
  ∨ (e = UnboundLocalError "rngs" ∧ rngs = None ∧
     ∃ arr rest, arrays = (arr, []) :: rest).
Proof.
  revert rngs pd. induction arrays as [|[arr accesses] arrays IH];
    intros rngs pd; simpl; [done|].
  destruct (access_loop_cases tbl accesses rngs)
    as [(a & p & it & Hin & Hit & Hnone & ->)
       |(_ & rngs' & -> & Hnil & Hsome & _)]; simpl.
  - intros [= <-]. left. exists it, arr, accesses, a, p.
    split_and!; [done|done|left|done|done].
  - destruct rngs' as [entry|].
    + intros Hrun.
      apply IH in Hrun as [(k & arr' & acc' & a & p & ? & ? & ? & ? & ?)
                          |(_ & [=] & _)].
      left. exists k, arr', acc', a, p. split_and!; [done|done|by right|done..].
    + intros [= <-]. right.
      destruct accesses as [|ap accesses].
      * rewrite <- Hnil by done. split_and!; [done..|]. by eexists _, _.
      * by destruct (Hsome ltac:(done)).
Qed.

(** What a call with a non-negative rank can raise: [IndexError] when the
    grid or the local extents are too short, [KeyError] at a symbol of an
    access term, or [UnboundLocalError] on [rngs] when the first array has
    no access term.  It never divides by zero. *)
Theorem get_data_decomposition_errors self r (e : exn) :
  0 ≤ r →
  (get_data_decomposition self r).1 = Raise e →
  let n := Nat.min (length (variables self)) (length (dimensions_ordered self)) in
  (e = IndexError ∧
   ((length (p_grid self) < n)%nat ∨ (length (loc_domain_dims self) < n)%nat))
  ∨ (∃ k arr accesses access pars,
        e = KeyError k ∧
        (arr, accesses) ∈ input_arrays self ∧ (access, pars) ∈ accesses ∧
        k ∈ split star access)
  ∨ (e = UnboundLocalError "rngs" ∧
     ∃ arr rest, input_arrays self = (arr, []) :: rest).
Proof.
  intros Hr Hrun n. revert Hrun. unfold get_data_decomposition.
  destruct (decide (prod (p_grid self) ≤ r)) as [|Hbusy]; [done|]. simpl.
  unfold iter_ranges, iter_ranges_list. rewrite p_pos_unrank by lia. simpl.
  destruct (iter_ranges_items _ _ _ _) as [items|e'] eqn:Hitems; simpl.
  - intros Hrun. right.
    apply array_loop_raise in Hrun
      as [(k & arr & acc & a & p & -> & _ & ? & ? & ?)|(-> & _ & ?)].
    + left. by exists k, arr, acc, a, p.
    + by right.
  - intros [= <-]. left.
    split; [by eapply iter_ranges_items_raise|].
    destruct (decide (length (p_grid self) < n)%nat) as [|Hp]; [by left|].
    destruct (decide (length (loc_domain_dims self) < n)%nat) as [|Hl];
      [by right|].
    exfalso.
    destruct (iter_ranges_items_ok (unrank_spec (p_grid self) r)
                (loc_domain_dims self) 0
                (zip_py (variables self) (dimensions_ordered self)))
      as (items & Hok & _).
    { rewrite zip_py_length, unrank_spec_length. subst n. simpl. lia. }
    { rewrite zip_py_length. subst n. simpl. lia. }
    congruence.
Qed.

Lemma get_data_decomposition_errors_witness :
  (IndexError = IndexError ∧
   ((length (p_grid example_short_grid) < 2)%nat
    ∨ (length (loc_domain_dims example_short_grid) < 2)%nat))
  ∨ (∃ k arr accesses access pars,
        IndexError = KeyError k ∧
        (arr, accesses) ∈ input_arrays example_short_grid ∧
        (access, pars) ∈ accesses ∧ k ∈ split star access)
  ∨ (IndexError = UnboundLocalError "rngs" ∧
     ∃ arr rest, input_arrays example_short_grid = (arr, []) :: rest).
Proof.
  apply (get_data_decomposition_errors example_short_grid 1 IndexError).
  - lia.
  - vm_compute. reflexivity.
Defined.





End Entries.


Section Returned.

Implicit Types (self : IOAnalysisSubgraph) (r : Z).
Implicit Types (tbl entry : gmap string range) (arrays : phis_t).
Implicit Types (rngs : option (gmap string range)).
Implicit Types (pd d : gmap string (gmap string range)).

Lemma array_loop_keys tbl arrays rngs pd d (k : string) :
  array_loop tbl arrays rngs pd = Ok d →
  is_Some (d !! k) ↔ is_Some (pd !! k) ∨ k ∈ arrays.*1.
Proof.
  revert rngs pd. induction arrays as [|[arr accesses] arrays IH];
    intros rngs pd; simpl.
  - intros [= ->]. split; [by left|]. intros [?|?%elem_of_nil]; done.
  - intros Hrun.
    destruct (access_loop tbl accesses rngs) as [[entry|]|]; simpl in Hrun;
      try discriminate.
    rewrite (IH _ _ Hrun), elem_of_cons.
    destruct (decide (k = arr)) as [->|Hne].
    + rewrite lookup_insert_eq. split; [by right; left|by left; eexists].
    + rewrite lookup_insert_ne by done. split.
      * intros [?|?]; [by left|by right; right].
      * intros [?|[?|?]]; [by left|done|by right].
Qed.

Lemma access_loop_from_table tbl (accesses : accesses_t) rngs rngs' :
  (∀ entry k v, rngs = Some entry → entry !! k = Some v → tbl !! k = Some v) →
  access_loop tbl accesses rngs = Ok rngs' →
  ∀ entry k v, rngs' = Some entry → entry !! k = Some v → tbl !! k = Some v.
Proof.
  revert rngs. induction accesses as [|[access pars] accesses IH];
    intros rngs Hinv; simpl.
  - by intros [= <-].
  - destruct (resolve_loop_cases tbl (split star access) ∅)
      as [(_ & entry & -> & Hk)|(it & _ & _ & ->)]; simpl; [|done].
    apply IH. intros entry' k v [= <-] Hv. rewrite Hk in Hv.
    destruct (decide (k ∈ split star access)); [done|].
    by rewrite lookup_empty in Hv.
Qed.

Lemma array_loop_from_table tbl arrays rngs pd d :
  (∀ entry k v, rngs = Some entry → entry !! k = Some v → tbl !! k = Some v) →
  from_table tbl pd →
  array_loop tbl arrays rngs pd = Ok d →
  from_table tbl d.
Proof.
  revert rngs pd. induction arrays as [|[arr accesses] arrays IH];
    intros rngs pd Hrngs Hpd; simpl.
  - by intros [= <-].
  - destruct (access_loop tbl accesses rngs) as [[entry|]|] eqn:Hacc; simpl;
      try discriminate.
    pose proof (access_loop_from_table _ _ _ _ Hrngs Hacc) as Hentry.
    apply IH.
    + intros entry' k v [= <-]. by apply Hentry.
    + intros arr' entry' k v Harr Hv.
      destruct (decide (arr' = arr)) as [->|Hne].
      * rewrite lookup_insert_eq in Harr. injection Harr as <-.
        by eapply Hentry.
      * rewrite lookup_insert_ne in Harr by done. by eapply Hpd.
Qed.

(** The distribution returned for a rank that is not idle has an entry for
    each array of [input_arrays] and for nothing else, and every range in
    an entry is the range the table holds for that symbol. *)
Theorem distribution_keys_and_ranges self r tbl d :
  r < prod (p_grid self) →
  iter_ranges self r = Ok tbl →
  get_data_decomposition self r = (Ok d, []) →
  (∀ arr, is_Some (d !! arr) ↔ arr ∈ (input_arrays self).*1) ∧
  (∀ arr entry k v, d !! arr = Some entry → entry !! k = Some v →
                    tbl !! k = Some v).
Proof.
  intros Hr Htbl Hrun.
  rewrite (get_data_decomposition_table _ _ _ Hr Htbl) in Hrun.
  injection Hrun as Hrun. split.
  - intros arr. rewrite (array_loop_keys _ _ _ _ _ _ Hrun).
    split; [|by right]. intros [[? Hin]|?]; [|done].
    by rewrite lookup_empty in Hin.
  - eapply array_loop_from_table; [| |exact Hrun]; [done|].
    intros arr entry k v Harr. by rewrite lookup_empty in Harr.
Qed.

Lemma distribution_keys_and_ranges_witness :
  is_Some (({["A" := <["k" := (0, 8)]> {["i" := (0, 4)]}]}
            : gmap string (gmap string range)) !! "B")
  ↔ "B" ∈ (input_arrays (example_B [("A", [("i*k", ["i"; "k"])])])).*1.
Proof.
  pose (self := example_B [("A", [("i*k", ["i"; "k"])])]).
  assert (Hr : 0 < prod (p_grid self)) by (vm_compute; reflexivity).
  assert (Htbl : iter_ranges self 0 = Ok (<["k" := (0, 8)]> {["i" := (0, 4)]}))
    by (vm_compute; reflexivity).
  assert (Hrun : get_data_decomposition self 0
                 = (Ok {["A" := <["k" := (0, 8)]> {["i" := (0, 4)]}]}, []))
    by (vm_compute; reflexivity).
  exact (proj1 (distribution_keys_and_ranges self 0 _ _ Hr Htbl Hrun) "B").
Defined.

End Returned.

(** ** Splitting access terms *)

Section Split.

Implicit Types (sep : ascii) (s : string) (pieces : list string).

Lemma has_char_append sep s s' :
  has_char sep (String.append s s') = has_char sep s || has_char sep s'.
Proof.
  induction s as [|c s IH]; simpl; [done|]. rewrite IH.
  by destruct (Ascii.eqb c sep).
Qed.

(** [split] cuts exactly at the separators: joining the pieces with the
    separator gives the string back, there is always at least one piece,
    and no piece contains the separator. *)
Theorem join_split sep s :
  join sep (split sep s) = s ∧
  split sep s ≠ [] ∧
  Forall (λ piece, has_char sep piece = false) (split sep s).
Proof.
  induction s as [|c s (IHj & IHn & IHf)]; simpl.
  - split_and!; [done|done|by repeat constructor].
  - destruct (split sep s) as [|w ws] eqn:Hs; [done|].
    destruct (Ascii.eqb c sep) eqn:Hc.
    + apply Ascii.eqb_eq in Hc as ->.
      split_and!; [|done|by constructor].
      change (String sep (join sep (w :: ws)) = String sep s). by rewrite IHj.
    + apply Forall_cons in IHf as [Hw Hws].
      split_and!; [|done|].
      * rewrite <- IHj. by destruct ws.
      * constructor; [|done]. simpl. by rewrite Hc.
Qed.

(** Conversely, pieces without the separator, at least one of them, are
    what [split] returns for their join. *)
Theorem split_join sep pieces :
  pieces ≠ [] →
  Forall (λ piece, has_char sep piece = false) pieces →
  split sep (join sep pieces) = pieces.
Proof.
  intros Hne Hall. induction Hall as [|p ps Hp Hps IH]; [done|].
  assert (Hcut : ∀ rest, split sep (String.append p (String sep rest))
                         = p :: split sep rest).
  { intros rest. clear IH Hne. induction p as [|c p IHp]; simpl.
    - by rewrite Ascii.eqb_refl.
    - simpl in Hp. apply orb_false_iff in Hp as [Hc Hp].
      rewrite Hc, (IHp Hp). done. }
  assert (Hone : split sep p = [p]).
  { clear IH Hne Hcut. induction p as [|c p IHp]; simpl; [done|].
    simpl in Hp. apply orb_false_iff in Hp as [Hc Hp].
    rewrite Hc, (IHp Hp). done. }
  destruct ps as [|p' ps']; [exact Hone|].
  change (split sep (String.append p (String sep (join sep (p' :: ps'))))
          = p :: p' :: ps').
  rewrite Hcut. f_equal. by apply IH.
Qed.

Lemma split_join_witness :
  split star (join star ["i"; "k"]) = ["i"; "k"].
Proof.
  apply (split_join star ["i"; "k"]); [discriminate|].
  repeat constructor.
Defined.

End Split.

(** ** Further properties of the einsum entry point *)

Section Einsum.

Context {SDFG SDG DecompositionParams : Type}.
Variable W : collaborators SDFG SDG DecompositionParams.

Implicit Types (params : SOAPParameters DecompositionParams).
Implicit Types (live : list Subgraph.t) (log : list event).

Lemma open_session_Ok_inv params log log' :
  open_session W log = (Ok params, log') →
  (∃ cfg, parse_params W = Ok cfg ∧
          params = set_solver_attr cfg (solver_of cfg)) ∧
  solver params = Some (solver_of params) ∧
  log' = log ++ opening_events None params.
Proof.
  unfold open_session. intros Hrun.
  apply io_bind_Ok_inv in Hrun as (cfg & log1 & Hparse & Hrun).
  apply call_Ok_inv in Hparse as [Hparse ->].
  apply io_bind_Ok_inv in Hrun as ([] & log2 & Hnew & Hrun).
  apply call_Ok_inv in Hnew as [_ ->].
  apply io_bind_Ok_inv in Hrun as ([] & log3 & Hstart & Hrun).
  apply call_Ok_inv in Hstart as [_ ->].
  apply io_bind_Ok_inv in Hrun as ([] & log4 & Htime & Hrun).
  apply call_Ok_inv in Htime as [_ ->].
  injection Hrun as <- <-. split_and!.
  - by exists cfg.
  - done.
  - by rewrite <- !app_assoc.
Qed.

Lemma snapshot_loop_einsum_log (gs : bool) params live acc log res log' :
  snapshot_loop_einsum W gs params live acc log = (Ok res, log') →
  log' = log ++ (if gs then init_events live else []).
Proof.
  revert acc log. induction live as [|subgr live IH]; intros acc log; simpl.
  - intros [= _ <-]. destruct gs; by rewrite app_nil_r.
  - intros Hrun.
    apply io_bind_Ok_inv in Hrun as (subgr' & log1 & Hstep & Hrun).
    apply IH in Hrun as ->. destruct gs.
    + apply call_Ok_inv in Hstep as [_ ->]. by rewrite <- app_assoc.
    + by injection Hstep as _ <-.
Qed.

Lemma einsum_snapshot_names (gs : bool) params live
    (snaps : list IOAnalysisSubgraph) :
  Forall2 (einsum_snapshot W gs params) live snaps →
  map name snaps = map Subgraph.name live.
Proof.
  induction 1 as [|subgr s live' snaps' (subgr' & _ & ->) _ IH]; [done|].
  simpl. by rewrite IH.
Qed.

(** Everything a successful einsum call did. *)
Lemma einsum_Ok_full (einsum_string : string)
    (supplied : option (SOAPParameters DecompositionParams))
    (gs : option bool) log (a : IOAnalysis SDG) log' :
  perform_soap_analysis_einsum W einsum_string supplied gs log = (Ok a, log') →
  ∃ params sdfg live,
    match supplied with
    | Some p => params = p
    | None => (∃ cfg, parse_params W = Ok cfg ∧
                      params = set_solver_attr cfg (solver_of cfg))
    end ∧
    sdfg_gen W einsum_string = Ok sdfg ∧
    new_SDG W sdfg params = Ok (sdg a) ∧
    calculate_IO_of_SDG W (sdg a) params = Ok (an_Q a, live) ∧
    an_name a = "SDFG" ∧
    Forall2 (einsum_snapshot W (default true gs) params) live (subgraphs a) ∧
    log' = log ++ opening_events supplied params
               ++ [SdfgGen einsum_string; NewSDG; CalculateIO]
               ++ (if default true gs then init_events live else []).
Proof.
  unfold perform_soap_analysis_einsum. intros Hrun.
  apply io_bind_Ok_inv in Hrun as (params & log1 & Hopen & Hrun).
  apply io_bind_Ok_inv in Hrun as (sdfg & log2 & Hgen & Hrun).
  apply call_Ok_inv in Hgen as [Hgen ->].
  apply io_bind_Ok_inv in Hrun as (g & log3 & Hsdg & Hrun).
  apply call_Ok_inv in Hsdg as [Hsdg ->].
  apply io_bind_Ok_inv in Hrun as ([Q live] & log4 & Hcalc & Hrun).
  apply call_Ok_inv in Hcalc as [Hcalc ->].
  apply io_bind_Ok_inv in Hrun as (res & log5 & Hloop & Hrun).
  injection Hrun as <- <-. simpl.
  pose proof (snapshot_loop_einsum_log _ _ _ _ _ _ _ Hloop) as ->.
  apply snapshot_loop_einsum_spec in Hloop as (new & -> & Hnew).
  exists params, sdfg, live. simpl.
  destruct supplied as [p|].
  - injection Hopen as <- <-. split_and!; try done.
    simpl. by rewrite <- !app_assoc.
  - apply open_session_Ok_inv in Hopen as (Hcfg & _ & ->).
    split_and!; try done. by rewrite <- !app_assoc.
Qed.

(** With parameters supplied by the caller, the einsum entry point leaves
    the solver session alone: it does not parse the configuration, build,
    start or configure a solver, nor end one, whatever the collaborators
    answer. *)
Theorem einsum_supplied_params_no_session (einsum_string : string)
    params (gs : option bool) :
  emits not_session_event
    (perform_soap_analysis_einsum W einsum_string (Some params) gs).
Proof.
  unfold perform_soap_analysis_einsum.
  repeat first [ apply snapshot_loop_einsum_emits; intros; reflexivity
               | apply emits_ret
               | apply emits_call; reflexivity
               | apply emits_bind; [|intros ?]
               | match goal with
                 | |- emits _ (match ?x with _ => _ end) => destruct x
                 end ].
Qed.

(** The analysis an einsum call returns: its graph is the one built from
    the generated SDFG with the parameters in use, which are the caller's if
    supplied and otherwise the parsed configuration with the new solver
    attached; its [Q] is the engine's; its name is the constant ["SDFG"];
    and it holds one snapshot per subgraph of the engine, in order and
    under the subgraph's name. *)
Theorem einsum_analysis_contents (einsum_string : string)
    (supplied : option (SOAPParameters DecompositionParams))
    (gs : option bool) log (a : IOAnalysis SDG) log' :
  perform_soap_analysis_einsum W einsum_string supplied gs log = (Ok a, log') →
  ∃ params sdfg live,
    match supplied with
    | Some p => params = p
    | None => (∃ cfg, parse_params W = Ok cfg ∧
                      params = set_solver_attr cfg (solver_of cfg))
    end ∧
    sdfg_gen W einsum_string = Ok sdfg ∧
    new_SDG W sdfg params = Ok (sdg a) ∧
    calculate_IO_of_SDG W (sdg a) params = Ok (an_Q a, live) ∧
    an_name a = "SDFG" ∧
    map name (subgraphs a) = map Subgraph.name live.
Proof.
  intros Hrun.
  apply einsum_Ok_full in Hrun
    as (params & sdfg & live & Hp & Hgen & Hsdg & Hcalc & Hname & Hsnap & _).
  exists params, sdfg, live. split_and!; try done.
  by eapply einsum_snapshot_names.
Qed.

(** The calls a successful einsum call makes, in order: the four calls
    opening the session (only when no parameters were supplied, with the
    solver built from the parsed caching options and the timeout 300),
    then [sdfg_gen], the SDG construction and the engine, then
    [init_decomposition] once per subgraph in the engine's order when
    schedule generation is on, and nothing else. *)
Theorem einsum_call_sequence (einsum_string : string)
    (supplied : option (SOAPParameters DecompositionParams))
    (gs : option bool) log (a : IOAnalysis SDG) log' :
  perform_soap_analysis_einsum W einsum_string supplied gs log = (Ok a, log') →
  ∃ params live,
    calculate_IO_of_SDG W (sdg a) params = Ok (an_Q a, live) ∧
    log' = log ++ opening_events supplied params
               ++ [SdfgGen einsum_string; NewSDG; CalculateIO]
               ++ (if default true gs then init_events live else []).
Proof.
  intros Hrun.
  apply einsum_Ok_full in Hrun
    as (params & sdfg & live & _ & _ & _ & Hcalc & _ & _ & Hlog).
  by exists params, live.
Qed.

End Einsum.

Lemma demo_einsum_run :
  perform_soap_analysis_einsum Demo.world "ij,jk->ik" None (Some false) []
  = (Ok {| an_name := "SDFG"; an_Q := Symbol "Q"; sdg := 2%nat;
           subgraphs := [copy_decomposition
                           (new_IOAnalysisSubgraph Demo.subgraph)
                           Demo.subgraph] |},
     [ParseParams; NewSolver (mkSolver false true); StartSolver false;
      SetTimeout 300; SdfgGen "ij,jk->ik"; NewSDG; CalculateIO]).
Proof. reflexivity. Defined.

Lemma einsum_analysis_contents_witness :
  ∃ params sdfg live,
    sdfg_gen Demo.world "ij,jk->ik" = Ok sdfg ∧
    new_SDG Demo.world sdfg params = Ok 2%nat ∧
    calculate_IO_of_SDG Demo.world 2%nat params = Ok (Symbol "Q", live) ∧
    map Subgraph.name live = [7].
Proof.
  destruct (einsum_analysis_contents Demo.world _ _ _ _ _ _ demo_einsum_run)
    as (params & sdfg & live & _ & Hgen & Hsdg & Hcalc & _ & Hnames).
  exists params, sdfg, live. split_and!; [exact Hgen|exact Hsdg|exact Hcalc|].
  symmetry. exact Hnames.
Defined.

Lemma einsum_call_sequence_witness :
  ∃ params live,
    calculate_IO_of_SDG Demo.world 2%nat params = Ok (Symbol "Q", live) ∧
    [ParseParams; NewSolver (mkSolver false true); StartSolver false;
     SetTimeout 300; SdfgGen "ij,jk->ik"; NewSDG; CalculateIO]
    = [] ++ opening_events None params
         ++ [SdfgGen "ij,jk->ik"; NewSDG; CalculateIO] ++ [].
Proof.
  exact (einsum_call_sequence Demo.world _ _ _ _ _ _ demo_einsum_run).
Defined.

(** ** Ownership of the points of the global domain *)

Section Ownership.

Implicit Types (self : IOAnalysisSubgraph) (grid coords xs : list Z) (r : Z).

Lemma rank_of_unrank_below grid r :
  0 ≤ r < prod grid → rank_of grid (unrank_spec grid r) = r.
Proof.
  intros Hr. destruct grid as [|g rest].
  - rewrite prod_nil in Hr. simpl. lia.
  - apply rank_of_unrank_spec; [lia|done].
Qed.

Lemma unrank_rank_of grid coords :
  within_grid grid coords → unrank_spec grid (rank_of grid coords) = coords.
Proof.
  induction 1 as [|g c rest cs Hc Hin IH]; [done|].
  pose proof (rank_of_bounds _ _ Hin) as HR. simpl.
  assert (Hq : (c * prod rest + rank_of rest cs) / prod rest = c).
  { rewrite Z.div_add_l by lia. rewrite Z.div_small by lia. lia. }
  rewrite Hq.
  replace (c * prod rest + rank_of rest cs - c * prod rest)
    with (rank_of rest cs) by lia.
  by rewrite IH.
Qed.

(** In a valid decomposition every point of the global domain is owned by
    exactly one rank below the rank count. *)
Theorem unique_owner self N xs :
  valid_decomposition self N →
  in_domain self xs →
  ∃ r, 0 ≤ r < prod (p_grid self) ∧ owns self r xs ∧
       ∀ r', 0 ≤ r' < prod (p_grid self) → owns self r' xs → r' = r.
Proof.
  intros Hvalid Hdom.
  assert (Hvalid' := Hvalid).
  destruct Hvalid' as (Hv & Hp & Hl & Hd & Hpos & Hlpos & Hcov).
  pose proof (Forall2_length _ _ _ Hdom) as Hxs.
  set (coords := zip_with Z.div xs (loc_domain_dims self)).
  assert (Hlen : length coords = N).
  { unfold coords. rewrite length_zip_with. lia. }
  assert (Hcoord : ∀ i x l, xs !! i = Some x →
                            loc_domain_dims self !! i = Some l →
                            coords !! i = Some (x / l)).
  { intros i x l Hx Hlo. unfold coords. rewrite lookup_zip_with, Hx. simpl.
    by rewrite Hlo. }
  assert (Hin : within_grid (p_grid self) coords).
  { apply Forall2_same_length_lookup. split; [lia|].
    intros i p c Hgrid Hc.
    pose proof (lookup_lt_Some _ _ _ Hgrid) as Hi.
    destruct (lookup_lt_is_Some_2 xs i) as [x Hx]; [lia|].
    destruct (lookup_lt_is_Some_2 (loc_domain_dims self) i) as [l Hlo]; [lia|].
    destruct (lookup_lt_is_Some_2 (dimensions_ordered self) i) as [g Hg]; [lia|].
    rewrite (Hcoord _ _ _ Hx Hlo) in Hc. injection Hc as <-.
    pose proof (Forall2_lookup_lr _ _ _ _ _ _ Hdom Hx Hg) as Hxg. simpl in Hxg.
    assert (0 < l) by by eapply (Forall_lookup_1 _ _ _ _ Hlpos).
    assert (g ≤ l * p) by by eapply Hcov.
    split; [apply Z.div_pos; lia|]. apply Z.div_lt_upper_bound; lia. }
  pose proof (rank_of_bounds _ _ Hin) as Hr.
  assert (Hcell : ∀ r' i x, 0 ≤ r' < prod (p_grid self) → xs !! i = Some x →
            ∃ c l g, loc_domain_dims self !! i = Some l ∧ 0 < l ∧
                     unrank_spec (p_grid self) r' !! i = Some c ∧
                     dim_range self r' i = Some (range_spec c l g) ∧
                     0 ≤ x < g).
  { intros r' i x Hr' Hx.
    pose proof (lookup_lt_Some _ _ _ Hx) as Hi.
    destruct (lookup_lt_is_Some_2 (dimensions_ordered self) i) as [g Hg]; [lia|].
    pose proof (Forall2_lookup_lr _ _ _ _ _ _ Hdom Hx Hg) as Hxg. simpl in Hxg.
    destruct (dim_range_spec _ _ _ _ _ Hvalid Hr' Hg)
      as (c & l & p & Hlo & _ & ? & _ & _ & Hdc & Hdr).
    unfold dim_coord in Hdc. rewrite (p_pos_unrank _ _ Hr') in Hdc.
    by exists c, l, g. }
  exists (rank_of (p_grid self) coords). split_and!; [lia|lia| |].
  - intros i x Hx.
    destruct (Hcell _ i x Hr Hx) as (c & l & g & Hlo & ? & Hc & Hdr & ?).
    rewrite (unrank_rank_of _ _ Hin), (Hcoord _ _ _ Hx Hlo) in Hc.
    injection Hc as <-.
    exists (range_spec (x / l) l g). split; [done|].
    apply in_range_spec.
    pose proof (Z.mul_div_le x l). pose proof (Z.mod_pos_bound x l).
    pose proof (Z.mod_eq x l). split_and!; lia.
  - intros r' Hr' Hown.
    rewrite <- (rank_of_unrank_below _ _ Hr'). f_equal.
    apply list_eq_same_length with N; [done|by rewrite unrank_spec_length|].
    intros i c c' Hi Hc Hc'.
    destruct (lookup_lt_is_Some_2 xs i) as [x Hx]; [lia|].
    destruct (Hcell _ i x Hr' Hx) as (c0 & l & g & Hlo & ? & Hc0 & Hdr & ?).
    rewrite Hc in Hc0. injection Hc0 as <-.
    rewrite (Hcoord _ _ _ Hx Hlo) in Hc'. injection Hc' as <-.
    destruct (Hown i x Hx) as (rg & Hrg & Hinr).
    rewrite Hdr in Hrg. injection Hrg as <-.
    apply in_range_spec in Hinr.
    apply (Z.div_unique x l c (x - c * l)); lia.
Qed.

Lemma unique_owner_witness :
  in_domain example_uneven [9] ∧
  ∃ r, 0 ≤ r < prod (p_grid example_uneven) ∧ owns example_uneven r [9] ∧
       ∀ r', 0 ≤ r' < prod (p_grid example_uneven) →
             owns example_uneven r' [9] → r' = r.
Proof.
  assert (Hdom : in_domain example_uneven [9]).
  { repeat constructor; simpl; lia. }
  split; [exact Hdom|].
  exact (unique_owner example_uneven 1 [9] example_uneven_valid Hdom).
Defined.

End Ownership.

(** ** The method on exact integers *)

Section GenericExact.

Implicit Types (self : IOAnalysisSubgraph) (r : Z).

Lemma generic_exact_prod (a : list Z) :
  Generic.prod (H := Generic.exact) a = Ok (prod a).
Proof.
  unfold Generic.prod, prod. simpl. generalize 1.
  induction a as [|x a IH]; intros acc; simpl; [done|]. apply IH.
Qed.

Lemma generic_exact_div (x y : Z) :
  Generic.div (H := Generic.exact) x y = div x y.
Proof.
  unfold Generic.div, div. simpl.
  destruct (decide (y = 0)) as [|Hy]; [done|]. simpl.
  destruct (div_exact x y Hy) as [_ E].
  rewrite decide_True; [done|]. split; [done|].
  rewrite E. by apply Z.mod_mul.
Qed.

Lemma generic_exact_p_pos_loop (grid : list Z) r :
  Generic.p_pos_loop (H := Generic.exact) grid r = p_pos_loop grid r.
Proof.
  revert r. induction grid as [|g rest IH]; intros r; simpl; [done|].
  rewrite generic_exact_prod. simpl. rewrite generic_exact_div.
  destruct (div r (prod rest)) as [p_dim|e]; simpl; [|done].
  by rewrite IH.
Qed.

Lemma generic_exact_min (a b : Z) :
  Generic.n_min (H := Generic.exact) a b = Z.min a b.
Proof.
  unfold Generic.n_min. simpl. case_bool_decide; lia.
Qed.

Lemma generic_exact_iter_ranges_items (pos loc : list Z) (i : nat)
    (vds : list (string * Z)) :
  Generic.iter_ranges_items (H := Generic.exact) pos loc i vds
  = iter_ranges_items pos loc i vds.
Proof.
  revert i. induction vds as [|[var g] vds IH]; intros i; simpl; [done|].
  destruct (index pos i) as [c|]; simpl; [|done].
  destruct (index loc i) as [l|]; simpl; [|done].
  by rewrite IH, generic_exact_min.
Qed.

Lemma generic_resolve_loop (tbl : gmap string range) (its : list string)
    (rngs : gmap string range) :
  Generic.resolve_loop tbl its rngs = resolve_loop tbl its rngs.
Proof. reflexivity. Qed.

Lemma generic_access_loop (tbl : gmap string range) (accesses : accesses_t)
    (rngs : option (gmap string range)) :
  Generic.access_loop tbl accesses rngs = access_loop tbl accesses rngs.
Proof. reflexivity. Qed.

Lemma generic_array_loop (tbl : gmap string range) (arrays : phis_t)
    (rngs : option (gmap string range))
    (pd : gmap string (gmap string range)) :
  Generic.array_loop tbl arrays rngs pd = array_loop tbl arrays rngs pd.
Proof. reflexivity. Qed.

Lemma generic_exact_p_pos self r :
  Generic.p_pos (H := Generic.exact) (of_exact self) r = p_pos self r.
Proof. apply generic_exact_p_pos_loop. Qed.

Lemma generic_exact_iter_ranges_list self r :
  Generic.iter_ranges_list (H := Generic.exact) (of_exact self) r
  = iter_ranges_list self r.
Proof.
  unfold Generic.iter_ranges_list, iter_ranges_list.
  rewrite generic_exact_p_pos. destruct (p_pos self r); simpl; [|done].
  apply generic_exact_iter_ranges_items.
Qed.

Lemma generic_exact_iter_ranges self r :
  Generic.iter_ranges (H := Generic.exact) (of_exact self) r
  = iter_ranges self r.
Proof.
  unfold Generic.iter_ranges, iter_ranges.
  by rewrite generic_exact_iter_ranges_list.
Qed.

Lemma generic_exact_dim_coord self r (i : nat) :
  Generic.dim_coord (H := Generic.exact) (of_exact self) r i
  = dim_coord self r i.
Proof. unfold Generic.dim_coord, dim_coord. by rewrite generic_exact_p_pos. Qed.

Lemma generic_exact_dim_range self r (i : nat) :
  Generic.dim_range (H := Generic.exact) (of_exact self) r i
  = dim_range self r i.
Proof.
  unfold Generic.dim_range, dim_range.
  by rewrite generic_exact_iter_ranges_list.
Qed.

(** On exact integers the method over any numbers is the model over [Z]:
    same outcome, same diagnostics. *)
Lemma generic_exact_get_data_decomposition self r :
  Generic.get_data_decomposition (H := Generic.exact) (of_exact self) r
  = ((get_data_decomposition self r).1,
     (λ d, match d with IdleRank used rank => (used, rank) end)
       <$> (get_data_decomposition self r).2).
Proof.
  unfold Generic.get_data_decomposition, get_data_decomposition.
  rewrite generic_exact_prod. simpl.
  case_bool_decide; destruct (decide (prod (p_grid self) ≤ r)); try lia;
    [done|]. simpl.
  rewrite generic_exact_iter_ranges.
  destruct (iter_ranges self r) as [tbl|]; simpl; [|done].
  by rewrite generic_array_loop.
Qed.

End GenericExact.

(** ** The method on Python [int]s: where true division stops being exact *)


(** C2, evaluated where it fails: with Python [int]s the coordinate of
    rank [2^53 + 1] on a grid of [2^60] is the float [2^53], not
    [floor(r / 1)]; on the grid [[2^60, 3]] rank [3 * 2^53 + 4] gets the
    coordinates [[2^53, 4.0]], the second outside its grid factor, where
    the unranking of the specification gives [[2^53 + 1, 1]]; and beyond
    the range of a float the division raises [OverflowError].  On concrete
    example A with Python [int]s the ranges of ranks 0 to 3 are the listed
    ones, as floats. *)
Theorem float_division_rounds_coordinates :
  Generic.p_pos (H := Python.numeric) example_huge (Python.Int (2 ^ 53 + 1))
  = Ok [Python.float_of_Z (2 ^ 53)] ∧
  unrank_spec [2 ^ 60] (2 ^ 53 + 1) = [2 ^ 53 + 1] ∧
  Generic.p_pos (H := Python.numeric) example_huge_2d
    (Python.Int (3 * 2 ^ 53 + 4))
  = Ok [Python.float_of_Z (2 ^ 53); Python.float_of_Z 4] ∧
  unrank_spec [2 ^ 60; 3] (3 * 2 ^ 53 + 4) = [2 ^ 53 + 1; 1] ∧
  Generic.p_pos (H := Python.numeric) example_beyond_float
    (Python.Int (10 ^ 400))
  = Raise OverflowError ∧
  (∀ arrays,
      Generic.iter_ranges (H := Python.numeric) (example_A_ints arrays)
        (Python.Int 0)
      = Ok (<["j" := (Python.float_of_Z 0, Python.float_of_Z 4)]>
              {["i" := (Python.float_of_Z 0, Python.float_of_Z 4)]}) ∧
      Generic.iter_ranges (H := Python.numeric) (example_A_ints arrays)
        (Python.Int 1)
      = Ok (<["j" := (Python.float_of_Z 4, Python.float_of_Z 8)]>
              {["i" := (Python.float_of_Z 0, Python.float_of_Z 4)]}) ∧
      Generic.iter_ranges (H := Python.numeric) (example_A_ints arrays)
        (Python.Int 2)
      = Ok (<["j" := (Python.float_of_Z 0, Python.float_of_Z 4)]>
              {["i" := (Python.float_of_Z 4, Python.float_of_Z 8)]}) ∧
      Generic.iter_ranges (H := Python.numeric) (example_A_ints arrays)
        (Python.Int 3)
      = Ok (<["j" := (Python.float_of_Z 4, Python.float_of_Z 8)]>
              {["i" := (Python.float_of_Z 4, Python.float_of_Z 8)]})).
Proof.
  split_and!; try (vm_compute; reflexivity).
  intros arrays. split_and!; vm_compute; reflexivity.
Qed.

(** C9, evaluated where it fails: the graph-based entry point called with
    schedule generation on, on a connected graph.  It raises on the
    unbound [params] before the engine runs, so no snapshot is returned
    and no decomposition field is copied; with the flag left out it does
    the same.  The einsum entry point on the same collaborators returns
    its snapshot with the fields of the decomposed subgraph. *)
Theorem graph_path_copies_nothing :
  perform_soap_analysis Demo.world 1%nat (Some true) []
  = (Raise (UnboundLocalError "params"), []) ∧
  perform_soap_analysis Demo.world 1%nat None []
  = (Raise (UnboundLocalError "params"), []) ∧
  ∃ a log,
    perform_soap_analysis_einsum Demo.world "ij,jk->ik" None None []
    = (Ok a, log) ∧
    subgraphs a
    = [copy_decomposition (new_IOAnalysisSubgraph Demo.subgraph)
         (Demo.decomposed Demo.subgraph)].
Proof.
  split_and!; [reflexivity..|].
  eexists _, _. split; reflexivity.
Qed.

(** ** Properties of the method run on exact integers *)

Section OnExactIntegers.

Implicit Types (self : IOAnalysisSubgraph) (r x : Z) (N i : nat).

(** On exact integers (sympy [Integer] fields and rank), coverage and
    partition: in a valid decomposition every rank below the rank count
    gets a range in dimension [i], a point lies in [[0, globalDims[i])]
    exactly when it lies in the range of some such rank, and ranks with
    distinct coordinates in the dimension have disjoint ranges. *)
Theorem exact_coverage_and_partition self N i g :
  valid_decomposition self N →
  dimensions_ordered self !! i = Some g →
  (∀ r, 0 ≤ r < prod (p_grid self) →
        is_Some (Generic.dim_range (H := Generic.exact) (of_exact self) r i) ∧
        ∃ items,
          Generic.iter_ranges_list (H := Generic.exact) (of_exact self) r
          = Ok items ∧
          Generic.get_data_decomposition (H := Generic.exact) (of_exact self) r
          = (Generic.array_loop (dict_of_items items) (input_arrays self)
               None ∅, [])) ∧
  (∀ x, 0 ≤ x < g ↔
        ∃ r rg, 0 ≤ r < prod (p_grid self) ∧
                Generic.dim_range (H := Generic.exact) (of_exact self) r i
                = Some rg ∧ in_range x rg) ∧
  (∀ r1 r2 c1 c2 rg1 rg2 x,
      0 ≤ r1 < prod (p_grid self) → 0 ≤ r2 < prod (p_grid self) →
      Generic.dim_coord (H := Generic.exact) (of_exact self) r1 i = Some c1 →
      Generic.dim_coord (H := Generic.exact) (of_exact self) r2 i = Some c2 →
      c1 ≠ c2 →
      Generic.dim_range (H := Generic.exact) (of_exact self) r1 i = Some rg1 →
      Generic.dim_range (H := Generic.exact) (of_exact self) r2 i = Some rg2 →
      ¬ (in_range x rg1 ∧ in_range x rg2)).
Proof.
  intros Hvalid Hg.
  destruct (coverage_and_partition self N i g Hvalid Hg) as (Hsome & Hcov & Hdis).
  split_and!.
  - intros r Hr. rewrite generic_exact_dim_range. split; [by apply Hsome|].
    destruct Hvalid as (Hv & Hp & Hl & Hd & _).
    destruct (iter_ranges_list_spec self N r Hv Hp Hl Hd Hr)
      as (items & Hit & _).
    exists items. rewrite generic_exact_iter_ranges_list.
    split; [done|].
    rewrite generic_exact_get_data_decomposition.
    rewrite get_data_decomposition_busy by lia.
    unfold iter_ranges. rewrite Hit. done.
  - intros x. rewrite Hcov. split; intros (r & rg & Hr & Hrg & Hin);
      exists r, rg.
    + by rewrite generic_exact_dim_range.
    + by rewrite generic_exact_dim_range in Hrg.
  - intros r1 r2 c1 c2 rg1 rg2 x Hr1 Hr2.
    rewrite !generic_exact_dim_coord, !generic_exact_dim_range.
    by apply Hdis.
Qed.

Lemma exact_coverage_and_partition_witness :
  valid_decomposition example_uneven 1 ∧
  (∀ x, 0 ≤ x < 10 ↔
        ∃ r rg, 0 ≤ r < prod (p_grid example_uneven) ∧
                Generic.dim_range (H := Generic.exact)
                  (of_exact example_uneven) r 0 = Some rg ∧ in_range x rg).
Proof.
  split; [exact example_uneven_valid|].
  apply (exact_coverage_and_partition example_uneven 1 0 10);
    [exact example_uneven_valid | reflexivity].
Defined.

(** On exact integers, for a rank below the rank count the loop computes
    the unranking of the specification and every dimension gets the range
    of its coordinate, clamped at the global extent. *)
Theorem exact_unranking_and_ranges self N r :
  length (variables self) = N →
  length (p_grid self) = N →
  length (loc_domain_dims self) = N →
  length (dimensions_ordered self) = N →
  0 ≤ r < prod (p_grid self) →
  Generic.p_pos (H := Generic.exact) (of_exact self) r
  = Ok (unrank_spec (p_grid self) r) ∧
  ∃ items,
    Generic.iter_ranges_list (H := Generic.exact) (of_exact self) r = Ok items ∧
    length items = N ∧
    Generic.get_data_decomposition (H := Generic.exact) (of_exact self) r
    = (Generic.array_loop (dict_of_items items) (input_arrays self) None ∅,
       []) ∧
    ∀ i var l g,
      variables self !! i = Some var →
      loc_domain_dims self !! i = Some l →
      dimensions_ordered self !! i = Some g →
      ∃ coord, unrank_spec (p_grid self) r !! i = Some coord ∧
               items !! i = Some (var, range_spec coord l g).
Proof.
  intros Hv Hp Hl Hd Hr.
  rewrite generic_exact_p_pos, generic_exact_iter_ranges_list.
  split; [by apply p_pos_unrank|].
  destruct (iter_ranges_list_spec self N r Hv Hp Hl Hd Hr)
    as (items & Hit & Hlen & Hk).
  exists items. split_and!; try done.
  rewrite generic_exact_get_data_decomposition.
  rewrite get_data_decomposition_busy by lia.
  unfold iter_ranges. rewrite Hit. done.
Qed.

Lemma exact_unranking_and_ranges_witness :
  (0 ≤ 3 < prod (p_grid (example_A []))) ∧
  Generic.p_pos (H := Generic.exact) (of_exact (example_A [])) 3
  = Ok (unrank_spec (p_grid (example_A [])) 3).
Proof.
  assert (Hr : 0 ≤ 3 < prod (p_grid (example_A []))) by (vm_compute; done).
  split; [exact Hr|].
  apply (exact_unranking_and_ranges (example_A []) 2 3); try reflexivity.
  exact Hr.
Defined.

(** On exact integers, ranking the coordinates of a rank below the rank
    count row-major gives the rank back, so two such ranks with the same
    coordinates are the same rank. *)
Theorem exact_rank_of_p_pos self r :
  0 ≤ r < prod (p_grid self) →
  (∃ coords,
      Generic.p_pos (H := Generic.exact) (of_exact self) r = Ok coords ∧
      rank_of (p_grid self) coords = r) ∧
  (∀ r', 0 ≤ r' < prod (p_grid self) →
         Generic.p_pos (H := Generic.exact) (of_exact self) r'
         = Generic.p_pos (H := Generic.exact) (of_exact self) r →
         r' = r).
Proof.
  intros Hr. destruct (rank_of_p_pos self r Hr) as [Hback Hinj]. split.
  - by rewrite generic_exact_p_pos.
  - intros r' Hr'. rewrite !generic_exact_p_pos. by apply Hinj.
Qed.

Lemma exact_rank_of_p_pos_witness :
  (0 ≤ 3 < prod (p_grid (example_A []))) ∧
  (∃ coords,
      Generic.p_pos (H := Generic.exact) (of_exact (example_A [])) 3 = Ok coords
      ∧ rank_of (p_grid (example_A [])) coords = 3).
Proof.
  assert (Hr : 0 ≤ 3 < prod (p_grid (example_A []))) by (vm_compute; done).
  split; [exact Hr|].
  exact (proj1 (exact_rank_of_p_pos (example_A []) 3 Hr)).
Defined.

(** On exact integers, coordinates inside the grid are the coordinates of
    the rank they rank to, and that rank is below the rank count. *)
Theorem exact_p_pos_rank_of self (coords : list Z) :
  within_grid (p_grid self) coords →
  0 ≤ rank_of (p_grid self) coords < prod (p_grid self) ∧
  Generic.p_pos (H := Generic.exact) (of_exact self)
    (rank_of (p_grid self) coords)
  = Ok coords.
Proof.
  intros Hin. rewrite generic_exact_p_pos. by apply p_pos_rank_of.
Qed.

Lemma exact_p_pos_rank_of_witness :
  within_grid (p_grid (example_A [])) [1; 0] ∧
  Generic.p_pos (H := Generic.exact) (of_exact (example_A []))
    (rank_of (p_grid (example_A [])) [1; 0])
  = Ok [1; 0].
Proof.
  assert (Hin : within_grid (p_grid (example_A [])) [1; 0]).
  { repeat constructor; simpl; lia. }
  split; [exact Hin|].
  exact (proj2 (exact_p_pos_rank_of (example_A []) [1; 0] Hin)).
Defined.

(** On exact integers, clamping: in a valid decomposition the range of a
    rank in [[0, prod(p_grid))] starts at a non-negative multiple of the
    local extent, ends no later than the global extent and is never longer
    than the local extent; it has the full local extent when the block
    fits, and is empty when the block starts at or beyond the global
    extent. *)
Theorem exact_range_clamped self N r i g :
  valid_decomposition self N →
  0 ≤ r < prod (p_grid self) →
  dimensions_ordered self !! i = Some g →
  ∃ c l lo hi,
    loc_domain_dims self !! i = Some l ∧
    Generic.dim_coord (H := Generic.exact) (of_exact self) r i = Some c ∧
    Generic.dim_range (H := Generic.exact) (of_exact self) r i
    = Some (lo, hi) ∧
    lo = c * l ∧ 0 ≤ lo ∧ hi ≤ g ∧ hi - lo ≤ l ∧
    ((c + 1) * l ≤ g → hi - lo = l) ∧
    (g ≤ c * l → hi ≤ lo).
Proof.
  intros Hvalid Hr Hg.
  rewrite generic_exact_dim_coord, generic_exact_dim_range.
  by eapply range_clamped.
Qed.

Lemma exact_range_clamped_witness :
  ∃ c l lo hi,
    loc_domain_dims example_uneven !! 0%nat = Some l ∧
    Generic.dim_coord (H := Generic.exact) (of_exact example_uneven) 2 0
    = Some c ∧
    Generic.dim_range (H := Generic.exact) (of_exact example_uneven) 2 0
    = Some (lo, hi) ∧
    lo = c * l ∧ 0 ≤ lo ∧ hi ≤ 10 ∧ hi - lo ≤ l ∧
    ((c + 1) * l ≤ 10 → hi - lo = l) ∧
    (10 ≤ c * l → hi ≤ lo).
Proof.
  apply (exact_range_clamped example_uneven 1 2 0 10).
  - exact example_uneven_valid.
  - vm_compute. done.
  - reflexivity.
Defined.

(** On exact integers, a negative rank is not taken for idle on a positive
    grid: no diagnostic is printed, and the coordinate of the first
    dimension is [floor(rank / prod(p_grid[1:]))], which is negative. *)
Theorem exact_negative_rank_not_idle self g rest r :
  p_grid self = g :: rest →
  Forall (λ p, 0 < p) (p_grid self) →
  r < 0 →
  (Generic.get_data_decomposition (H := Generic.exact) (of_exact self) r).2
  = [] ∧
  ∃ c, Generic.dim_coord (H := Generic.exact) (of_exact self) r 0 = Some c ∧
       c = r / prod rest ∧ c < 0.
Proof.
  intros Hgrid Hpos Hr.
  destruct (negative_rank_not_idle self g rest r Hgrid Hpos Hr) as [Hd Hc].
  rewrite generic_exact_get_data_decomposition, generic_exact_dim_coord.
  simpl. by rewrite Hd.
Qed.

Lemma exact_negative_rank_not_idle_witness :
  ∃ c, Generic.dim_coord (H := Generic.exact) (of_exact (example_A [])) (-1) 0
       = Some c ∧ c = -1 / prod [2] ∧ c < 0.
Proof.
  apply (exact_negative_rank_not_idle (example_A []) 2 [2] (-1)).
  - reflexivity.
  - repeat constructor.
  - lia.
Defined.

(** On exact integers, with the four sequences of equal length and a rank
    in [[0, prod(p_grid))], the range table is built, its keys are exactly
    the variable names, and a name is bound to the range of the last
    dimension that carries it; with distinct names that is the range of
    the variable's own dimension. *)
Theorem exact_range_table_lookup self N r :
  length (variables self) = N →
  length (p_grid self) = N →
  length (loc_domain_dims self) = N →
  length (dimensions_ordered self) = N →
  0 ≤ r < prod (p_grid self) →
  ∃ tbl,
    Generic.iter_ranges (H := Generic.exact) (of_exact self) r = Ok tbl ∧
    (∀ k, is_Some (tbl !! k) ↔ k ∈ variables self) ∧
    (∀ i var, variables self !! i = Some var →
              var ∉ drop (S i) (variables self) →
              tbl !! var
              = Generic.dim_range (H := Generic.exact) (of_exact self) r i) ∧
    (NoDup (variables self) →
     ∀ i var, variables self !! i = Some var →
              tbl !! var
              = Generic.dim_range (H := Generic.exact) (of_exact self) r i).
Proof.
  intros Hv Hp Hl Hd Hr.
  destruct (range_table_lookup self N r Hv Hp Hl Hd Hr)
    as (tbl & Htbl & Hdom & Hlast & Hnd).
  exists tbl. rewrite generic_exact_iter_ranges. split_and!; try done.
  - intros i var. rewrite generic_exact_dim_range. apply Hlast.
  - intros Hno i var. rewrite generic_exact_dim_range. by apply Hnd.
Qed.

Lemma exact_range_table_lookup_witness :
  ∃ tbl,
    Generic.iter_ranges (H := Generic.exact) (of_exact (example_A [])) 2
    = Ok tbl ∧
    (∀ k, is_Some (tbl !! k) ↔ k ∈ variables (example_A [])).
Proof.
  destruct (exact_range_table_lookup (example_A []) 2 2)
    as (tbl & Htbl & Hdom & _); try reflexivity.
  - vm_compute. done.
  - exists tbl. split; [exact Htbl | exact Hdom].
Defined.

(** On exact integers, when the processor grid or the local extents are
    shorter than the dimensions zipped from the variables and the global
    extents, a rank in [[0, prod(p_grid))] fails with [IndexError]. *)
Theorem exact_short_grid_IndexError self r :
  0 ≤ r < prod (p_grid self) →
  let n := Nat.min (length (variables self)) (length (dimensions_ordered self)) in
  (length (p_grid self) < n)%nat ∨ (length (loc_domain_dims self) < n)%nat →
  Generic.get_data_decomposition (H := Generic.exact) (of_exact self) r
  = (Raise IndexError, []).
Proof.
  intros Hr n Hshort. rewrite generic_exact_get_data_decomposition.
  by rewrite (short_grid_IndexError self r Hr Hshort).
Qed.

Lemma exact_short_grid_IndexError_witness :
  Generic.get_data_decomposition (H := Generic.exact)
    (of_exact example_short_grid) 1
  = (Raise IndexError, []).
Proof.
  apply (exact_short_grid_IndexError example_short_grid 1).
  - vm_compute. done.
  - left. vm_compute. lia.
Defined.



(** On exact integers, in a valid decomposition every point of the global
    domain is owned by exactly one rank below the rank count. *)
Theorem exact_unique_owner self N (xs : list Z) :
  valid_decomposition self N →
  in_domain self xs →
  ∃ r, 0 ≤ r < prod (p_grid self) ∧ exact_owns self r xs ∧
       ∀ r', 0 ≤ r' < prod (p_grid self) → exact_owns self r' xs → r' = r.
Proof.
  intros Hvalid Hdom.
  assert (Hsame : ∀ q, exact_owns self q xs ↔ owns self q xs).
  { intros q. unfold exact_owns, owns.
    split; intros Hown j x Hx; destruct (Hown j x Hx) as (rg & Hrg & Hin);
      exists rg.
    - by rewrite generic_exact_dim_range in Hrg.
    - by rewrite generic_exact_dim_range. }
  destruct (unique_owner self N xs Hvalid Hdom) as (r & Hr & Hown & Huniq).
  exists r. split_and!; [lia|lia|by apply Hsame|].
  intros r' Hr' Hown'. apply Huniq; [done|by apply Hsame].
Qed.

Lemma exact_unique_owner_witness :
  in_domain example_uneven [9] ∧
  ∃ r, 0 ≤ r < prod (p_grid example_uneven) ∧ exact_owns example_uneven r [9] ∧
       ∀ r', 0 ≤ r' < prod (p_grid example_uneven) →
             exact_owns example_uneven r' [9] → r' = r.
Proof.
  assert (Hdom : in_domain example_uneven [9]).
  { repeat constructor; simpl; lia. }
  split; [exact Hdom|].
  exact (exact_unique_owner example_uneven 1 [9] example_uneven_valid Hdom).
Defined.

End OnExactIntegers.
